(** * rag_api: text chunking, chunk identifiers and vector-store ingestion

    A shallow embedding of [rag_api/file_processing.py] ([simple_chunker],
    [generate_chunk_ids]) and of the data preparation done by the two
    ingesting views of [rag_api/views.py], with the properties stated for
    them.

    Conventions.
    - A Python [str] is a list of Unicode code points, [list N].
    - A Python [int] is a [Z].
    - The [while] loop of [simple_chunker] is run with a bound on the
      number of loop tests; [None] means that the bound was reached. *)

From Stdlib Require Import ZArith List Ascii String Decimal DecimalString DecimalZ Lia.
From stdpp Require Import base option list gmap.

Local Open Scope Z_scope.

(** ** Python strings *)

Abbreviation char := N (only parsing).
Abbreviation str := (list N) (only parsing).

(** [len(s)] *)
Definition len {A} (s : list A) : Z := Z.of_nat (length s).

(** A string literal of the source, as the list of its code points. *)
Definition lit (s : string) : str := N_of_ascii <$> list_ascii_of_string s.

(** How a slice bound is brought into [0 .. n] (negative bounds count from
    the end), as [PySlice_AdjustIndices] does for a step of 1. *)
Definition adjust_index (n i : Z) : Z :=
  if i <? 0 then Z.max 0 (i + n) else Z.min i n.

(** [s[lo:hi]] *)
Definition slice {A} (s : list A) (lo hi : Z) : list A :=
  let lo' := adjust_index (len s) lo in
  let hi' := adjust_index (len s) hi in
  take (Z.to_nat (hi' - lo')) (drop (Z.to_nat lo') s).

(** ** [simple_chunker] *)

(** A chunk as appended to [chunks], tagged with the value [start] had when
    it was cut (the tag is not part of the returned value). *)
Record emitted := Emitted { offset : Z; content : str }.

Record loop_state := LoopState { start : Z; chunks : list emitted }.

Inductive control :=
| Next (st : loop_state)
| Exit (result : list emitted).

(** The loop test followed by one pass through the body of the [while]. *)
Definition loop_body (text : str) (chunk_size chunk_overlap : Z)
    (st : loop_state) : control :=
  if start st <? len text then
    let end_ := start st + chunk_size in
    let chunk := slice text (start st) end_ in
    let chunks' := chunks st ++ [Emitted (start st) chunk] in
    let start1 := start st + (chunk_size - chunk_overlap) in
    let start2 := if start1 <? 0 then 0 else start1 in
    if len text <=? end_ then Exit chunks'
    else Next (LoopState start2 chunks')
  else Exit (chunks st).

Fixpoint while (fuel : nat) (text : str) (chunk_size chunk_overlap : Z)
    (st : loop_state) : option (list emitted) :=
  match fuel with
  | O => None
  | S fuel' =>
      match loop_body text chunk_size chunk_overlap st with
      | Exit result => Some result
      | Next st' => while fuel' text chunk_size chunk_overlap st'
      end
  end.

Definition simple_chunker_trace (fuel : nat) (text : str)
    (chunk_size chunk_overlap : Z) : option (list emitted) :=
  match text with
  | [] => Some []
  | _ => while fuel text chunk_size chunk_overlap (LoopState 0 [])
  end.

Definition simple_chunker (fuel : nat) (text : str)
    (chunk_size chunk_overlap : Z) : option (list str) :=
  match simple_chunker_trace fuel text chunk_size chunk_overlap with
  | Some es => Some (content <$> es)
  | None => None
  end.

(** The call returns [es] (tagged) or [cs]. *)
Definition trace_returns (text : str) (chunk_size chunk_overlap : Z)
    (es : list emitted) : Prop :=
  ∃ fuel, simple_chunker_trace fuel text chunk_size chunk_overlap = Some es.

Definition returns (text : str) (chunk_size chunk_overlap : Z)
    (cs : list str) : Prop :=
  ∃ fuel, simple_chunker fuel text chunk_size chunk_overlap = Some cs.

(** The text put together again: the first chunk whole, every later chunk
    from its [chunk_overlap]'th character. *)
Definition reassemble (chunk_overlap : Z) (cs : list str) : str :=
  match cs with
  | [] => []
  | c :: rest => c ++ concat ((λ c', slice c' chunk_overlap (len c')) <$> rest)
  end.

(** ** [generate_chunk_ids] *)

(** [str.isalnum] looks a code point up in the Unicode character database.
    For ASCII the answer is written out below; the table for the other code
    points is not part of the repository and is taken as given. *)
Class unicode_db := { isalnum_nonascii : N → bool }.

Definition in_range (lo hi c : N) : bool := ((lo <=? c) && (c <=? hi))%N.

(** [c.isalnum()] *)
Definition isalnum `{unicode_db} (c : char) : bool :=
  if (c <? 128)%N then
    in_range 48 57 c || in_range 65 90 c || in_range 97 122 c
  else isalnum_nonascii c.

(** [c.isspace()] *)
Definition isspace (c : char) : bool :=
  in_range 9 13 c || in_range 28 32 c || (c =? 133)%N || (c =? 160)%N
  || (c =? 5760)%N || in_range 8192 8202 c || (c =? 8232)%N
  || (c =? 8233)%N || (c =? 8239)%N || (c =? 8287)%N || (c =? 12288)%N.

Fixpoint lstrip (s : str) : str :=
  match s with
  | c :: r => if isspace c then lstrip r else s
  | [] => []
  end.

(** [s.strip()] *)
Definition strip (s : str) : str := reverse (lstrip (reverse (lstrip s))).

Definition slash : char := 47%N.
Definition dot : char := 46%N.
Definition underscore : char := 95%N.

(** [s.split(sep)] for a separator of one character. *)
Fixpoint split (sep : char) (s : str) : list str :=
  match s with
  | [] => [[]]
  | c :: r =>
      if (c =? sep)%N then [] :: split sep r
      else match split sep r with
           | p :: ps => (c :: p) :: ps
           | [] => [[c]]
           end
  end.

(** [s.rfind(c)], where [i] is the index of the head of [s]: the index of
    the last occurrence of [c], or -1. *)
Fixpoint rfind_from (i : Z) (c : char) (s : str) : Z :=
  match s with
  | [] => -1
  | x :: r =>
      let j := rfind_from (i + 1) c r in
      if 0 <=? j then j else if (x =? c)%N then i else -1
  end.

Definition rfind (c : char) (s : str) : Z := rfind_from 0 c s.

(** [Path(filename).name] on a POSIX system: the last component of the
    path, where empty components and [.] do not count. *)
Definition path_name (filename : str) : str :=
  let parts :=
    filter (λ x, x ≠ [] ∧ x ≠ [dot]) (split slash filename) in
  default [] (last parts).

(** [Path(filename).stem]: the name without its last suffix, where a dot
    that starts or ends the name does not start a suffix (pathlib up to
    Python 3.13). *)
Definition stem (filename : str) : str :=
  let name := path_name filename in
  let i := rfind dot name in
  if (0 <? i) && (i <? len name - 1) then slice name 0 i else name.

(** [str(z)] and the [{z}] of an f-string, for an [int]. *)
Definition str_of_int (z : Z) : str := lit (NilZero.string_of_int (Z.to_int z)).

(** [range(n)] *)
Definition range (n : Z) : list Z := seqZ 0 n.

(** The local variable [base_name_safe] of [generate_chunk_ids]. *)
Definition base_name_safe `{unicode_db} (filename : str) : str :=
  let base_name := stem filename in
  slice ((λ c, if isalnum c then c else underscore) <$> base_name) 0 50.

(** [generate_chunk_ids]; [now] is what [int(time.time())] gives when the
    function reads the clock, which it does once. *)
Definition generate_chunk_ids `{unicode_db} (now : Z) (filename : str)
    (num_chunks : Z) : list str :=
  let timestamp := now in
  let base_name_safe := base_name_safe filename in
  (λ i, base_name_safe ++ lit "_" ++ str_of_int timestamp
          ++ lit "_chunk_" ++ str_of_int i) <$> range num_chunks.

(** Whether [c] occurs in [s]. *)
Definition contains (c : char) (s : str) : bool := existsb (N.eqb c) s.

(** ** The ingesting views *)

(** A value of a metadata mapping. *)
Inductive value :=
| VNull
| VBool (b : bool)
| VInt (z : Z)
| VStr (s : str).

Inductive exn := ConnectionError | ValueError | RuntimeError | OtherError.

Inductive status :=
| HTTP_200_OK
| HTTP_201_CREATED
| HTTP_400_BAD_REQUEST
| HTTP_500_INTERNAL_SERVER_ERROR
| HTTP_503_SERVICE_UNAVAILABLE.

Inductive task_type := retrieval_document | retrieval_query.

(** An entry of [validated_data["documents"]]; [doc.get("metadata")] is
    [None] when the key is absent. *)
Record document := Document {
  doc_id : str;
  doc_text : str;
  doc_metadata : option (gmap str value)
}.

Record uploaded_file := UploadedFile {
  file_name : str;
  file_content : list N
}.

Section Views.

(** An embedding vector, as the embedding service returns it. *)
Variable embedding : Type.

(** The keyword arguments of one call of [collection.add]. *)
Record add_call := AddCall {
  add_ids : list str;
  add_embeddings : list embedding;
  add_documents : list str;
  add_metadatas : list (gmap str value)
}.

(** What a request finds outside the views: the clock, the extraction
    layer, the embedding service and the vector store, each of which may
    raise. *)
Record services := Services {
  time_now : Z;
  extract_text_from_file : uploaded_file → option str * option str;
  embed_text_gemini : list str → task_type → exn + list embedding;
  get_collection : exn + unit;
  collection_add : add_call → exn + unit
}.

(** The [except] clauses shared by the two views. *)
Definition ingest_handler (e : exn) : status :=
  match e with
  | ConnectionError => HTTP_503_SERVICE_UNAVAILABLE
  | ValueError => HTTP_400_BAD_REQUEST
  | _ => HTTP_500_INTERNAL_SERVER_ERROR
  end.

Definition default_metadata : gmap str value :=
  {[ lit "source" := VStr (lit "unknown") ]}.

(** One pass through the [for doc in documents_data] loop of
    [IngestView.post], on the three lists it appends to. [not metadata]
    holds of [None] and of the empty mapping. *)
Definition ingest_step
    (acc : list str * list str * list (gmap str value)) (doc : document)
    : list str * list str * list (gmap str value) :=
  let '(ids, texts, metadatas_prepared) := acc in
  let ids := ids ++ [doc_id doc] in
  let texts := texts ++ [doc_text doc] in
  match doc_metadata doc with
  | None => (ids, texts, metadatas_prepared ++ [default_metadata])
  | Some metadata =>
      if Nat.eqb (size metadata) 0 then
        (ids, texts, metadatas_prepared ++ [default_metadata])
      else
        (ids, texts, metadatas_prepared ++ [metadata])
  end.

(** [IngestView.post] from [validated_data] on: the status of the response
    and the calls of [collection.add] that were made. *)
Definition ingest_post (svc : services) (documents_data : list document)
    : status * list add_call :=
  match get_collection svc with
  | inl e => (ingest_handler e, [])
  | inr _ =>
      let '(ids, texts, metadatas_prepared) :=
        foldl ingest_step ([], [], []) documents_data in
      match ids with
      | [] => (HTTP_200_OK, [])
      | _ =>
          match embed_text_gemini svc texts retrieval_document with
          | inl e => (ingest_handler e, [])
          | inr embeddings =>
              let call := AddCall ids embeddings texts metadatas_prepared in
              match collection_add svc call with
              | inl e => (ingest_handler e, [call])
              | inr _ => (HTTP_201_CREATED, [call])
              end
          end
      end
  end.

(** Truth value of an optional string: [None] and the empty string are
    false. *)
Definition str_truthy (s : option str) : bool :=
  match s with
  | Some (_ :: _) => true
  | _ => false
  end.

(** The metadata of chunk [i] of [total] in [FileUploadIngestView.post]. *)
Definition chunk_metadata (original_filename : str) (i total : Z)
    : gmap str value :=
  {[ lit "source" := VStr original_filename;
     lit "chunk_index" := VInt i;
     lit "total_chunks" := VInt total ]}.

(** [FileUploadIngestView.post] from the validated file on. [None]: the
    bound on the loop of [simple_chunker] was reached. *)
Definition upload_post `{unicode_db} (fuel : nat) (svc : services)
    (file : uploaded_file) : option (status * list add_call) :=
  let original_filename := file_name file in
  let '(extracted_text, error_msg) := extract_text_from_file svc file in
  if str_truthy error_msg then Some (HTTP_400_BAD_REQUEST, [])
  else
    match extracted_text with
    | None | Some [] => Some (HTTP_200_OK, [])
    | Some extracted_text =>
        match strip extracted_text with
        | [] => Some (HTTP_200_OK, [])
        | _ =>
            match simple_chunker fuel extracted_text 1500 150 with
            | None => None
            | Some [] => Some (HTTP_200_OK, [])
            | Some chunks =>
                let chunk_ids :=
                  generate_chunk_ids (time_now svc) original_filename
                    (len chunks) in
                let metadatas :=
                  (λ i, chunk_metadata original_filename i (len chunks))
                    <$> range (len chunks) in
                match embed_text_gemini svc chunks retrieval_document with
                | inl e => Some (ingest_handler e, [])
                | inr embeddings =>
                    match get_collection svc with
                    | inl e => Some (ingest_handler e, [])
                    | inr _ =>
                        let call :=
                          AddCall chunk_ids embeddings chunks metadatas in
                        match collection_add svc call with
                        | inl e => Some (ingest_handler e, [call])
                        | inr _ => Some (HTTP_201_CREATED, [call])
                        end
                    end
                end
            end
        end
    end.

End Views.

Arguments AddCall {embedding}.
Arguments add_ids {embedding}.
Arguments add_embeddings {embedding}.
Arguments add_documents {embedding}.
Arguments add_metadatas {embedding}.
Arguments Services {embedding}.
Arguments time_now {embedding}.
Arguments extract_text_from_file {embedding}.
Arguments embed_text_gemini {embedding}.
Arguments get_collection {embedding}.
Arguments collection_add {embedding}.
Arguments ingest_post {embedding}.
Arguments ingest_step : simpl never.
Arguments upload_post {embedding _}.

(** The metadata [IngestView.post] stores for a document. *)
Definition prepared_metadata (doc : document) : gmap str value :=
  match doc_metadata doc with
  | None => default_metadata
  | Some metadata =>
      if Nat.eqb (size metadata) 0 then default_metadata else metadata
  end.

(** ** Inputs used as examples *)

Definition example_services : services unit :=
  Services 1700000000
    (λ _, (Some (lit "hello world"), None))
    (λ texts _, inr (replicate (length texts) ()))
    (inr ())
    (λ _, inr ()).

Definition example_documents : list document :=
  [Document (lit "a") (lit "first") None;
   Document (lit "b") (lit "second") (Some ∅);
   Document (lit "c") (lit "third") (Some {[ lit "k" := VInt 1 ]})].

Definition example_file : uploaded_file :=
  UploadedFile (lit "notes.txt") [104; 105]%N.

(** A database in which no code point outside ASCII is alphanumeric. *)
Definition ascii_only : unicode_db := {| isalnum_nonascii _ := false |}.

(** ** The offsets a valid configuration visits *)

(** [visits text chunk_size chunk_overlap s offs]: entering the loop with
    [start = s], the chunks are cut at the offsets [offs], the last of them
    being the first whose window reaches the end of the text. *)
Inductive visits (text : str) (chunk_size chunk_overlap : Z)
    : Z → list Z → Prop :=
| visits_last s :
    len text ≤ s + chunk_size →
    visits text chunk_size chunk_overlap s [s]
| visits_more s offs :
    s + chunk_size < len text →
    visits text chunk_size chunk_overlap (s + (chunk_size - chunk_overlap)) offs →
    visits text chunk_size chunk_overlap s (s :: offs).

(** The chunk cut at offset [o]. *)
Definition cut (text : str) (chunk_size : Z) (o : Z) : emitted :=
  Emitted o (slice text o (o + chunk_size)).

(** An identifier, given the base name and the timestamp it shares with the
    others and its own index. *)
Definition chunk_id (base_name : str) (timestamp i : Z) : str :=
  base_name ++ lit "_" ++ str_of_int timestamp ++ lit "_chunk_" ++ str_of_int i.

(** The characters a numeral is made of: the digits and the minus sign. *)
Definition numeral_char (c : char) : Prop := c = 45%N ∨ (48 ≤ c ≤ 57)%N.

(** The number of chunks of a text of [n] characters in a valid
    configuration: one, and one more for every further step of
    [chunk_size - chunk_overlap] characters needed to reach the end. *)
Definition expected_chunks (n chunk_size chunk_overlap : Z) : Z :=
  if n <=? chunk_size then 1
  else (n - chunk_size + (chunk_size - chunk_overlap) - 1)
         / (chunk_size - chunk_overlap) + 1.

(** ** [rag_api/utils.py]: the clients kept in module variables *)

Module utils.

(** What a function of the module raises: an exception of its own, or the
    exception [e] that a library raised, passed on. *)
Inductive raised (E : Type) :=
| ConnectionError (cause : E)
| RuntimeError
| TypeError
| Propagated (e : E).
Arguments ConnectionError {E}.
Arguments RuntimeError {E}.
Arguments TypeError {E}.
Arguments Propagated {E}.

(** The settings the module reads; a setting that is [None] or empty is
    false. *)
Record settings := Settings {
  GOOGLE_API_KEY : option str;
  GEMINI_MODEL_NAME : str;
  GEMINI_EMBEDDING_MODEL : option str
}.

(** The argument [text_or_texts] of [embed_text_gemini]. *)
Inductive embed_input :=
| OneText (text : str)
| Texts (texts : list str)
| NeitherTextNorList.

Section Clients.

(** Chroma clients, generative models, the value under ["embedding"] in
    the answer of [genai.embed_content], and library exceptions. *)
Variables client model embedding E : Type.

(** [get_chroma_client]. [st] is the module variable [_chroma_client];
    [HttpClient] is what [chromadb.HttpClient(...)] does at this call (a
    client, or an exception) and [heartbeat] what [heartbeat()] does on a
    client. The result is what the call returns or raises, and the module
    variable after the call. *)
Definition get_chroma_client (HttpClient : E + client)
    (heartbeat : client → E + unit) (st : option client)
    : (raised E + client) * option client :=
  match st with
  | None =>
      match HttpClient with
      | inl e => (inl (ConnectionError e), None)
      | inr c =>
          match heartbeat c with
          | inl e => (inl (ConnectionError e), Some c)
          | inr _ => (inr c, Some c)
          end
      end
  | Some c => (inr c, Some c)
  end.

(** The module variables [_gemini_initialized], [_gemini_model] and
    [_gemini_embedding_model]. *)
Record gemini_globals := GeminiGlobals {
  gemini_initialized : bool;
  gemini_model : option model;
  gemini_embedding_model : option str
}.

(** The state of the module when it is loaded. *)
Definition gemini_unset : gemini_globals := GeminiGlobals false None None.

(** What the [google.generativeai] library does at a call. *)
Record genai := Genai {
  configure : E + unit;
  GenerativeModel : str → E + model;
  embed_content : str → embed_input → task_type → E + embedding
}.

(** [initialize_gemini]: the module variables after the call. An exception
    of the library is logged and not passed on. *)
Definition initialize_gemini (lib : genai) (cfg : settings)
    (g : gemini_globals) : gemini_globals :=
  if negb (gemini_initialized g) then
    if str_truthy (GOOGLE_API_KEY cfg) then
      match configure lib with
      | inl _ => g
      | inr _ =>
          match GenerativeModel lib (GEMINI_MODEL_NAME cfg) with
          | inl _ => g
          | inr m => GeminiGlobals true (Some m) (GEMINI_EMBEDDING_MODEL cfg)
          end
      end
    else g
  else g.

(** [get_gemini_model] *)
Definition get_gemini_model (lib : genai) (cfg : settings)
    (g : gemini_globals) : (raised E + model) * gemini_globals :=
  let g := if negb (gemini_initialized g) then initialize_gemini lib cfg g
           else g in
  match gemini_model g with
  | None => (inl RuntimeError, g)
  | Some m => (inr m, g)
  end.

(** [get_embedding_model_name] *)
Definition get_embedding_model_name (lib : genai) (cfg : settings)
    (g : gemini_globals) : (raised E + str) * gemini_globals :=
  let g := if negb (gemini_initialized g) then initialize_gemini lib cfg g
           else g in
  match gemini_embedding_model g with
  | Some (c :: name) => (inr (c :: name), g)
  | _ => (inl RuntimeError, g)
  end.

(** [embed_text_gemini]: an exception raised inside the [try] is logged
    and raised again. *)
Definition embed_text_gemini (lib : genai) (cfg : settings)
    (text_or_texts : embed_input) (task : task_type) (g : gemini_globals)
    : (raised E + embedding) * gemini_globals :=
  let g := if negb (gemini_initialized g) then initialize_gemini lib cfg g
           else g in
  match gemini_embedding_model g with
  | Some (_ :: _) =>
      match text_or_texts with
      | NeitherTextNorList => (inl TypeError, g)
      | _ =>
          match get_embedding_model_name lib cfg g with
          | (inl e, g) => (inl e, g)
          | (inr name, g) =>
              match embed_content lib name text_or_texts task with
              | inl e => (inl (Propagated e), g)
              | inr result => (inr result, g)
              end
          end
      end
  | _ => (inl RuntimeError, g)
  end.

(** The module variables a run of the program can reach: [initialize_gemini]
    sets the three of them together. *)
Definition gemini_consistent (g : gemini_globals) : Prop :=
  if gemini_initialized g then is_Some (gemini_model g)
  else gemini_model g = None ∧ gemini_embedding_model g = None.

End Clients.

Arguments GeminiGlobals {model}.
Arguments gemini_initialized {model}.
Arguments gemini_model {model}.
Arguments gemini_embedding_model {model}.
Arguments gemini_unset {model}.
Arguments Genai {model embedding E}.
Arguments configure {model embedding E}.
Arguments GenerativeModel {model embedding E}.
Arguments embed_content {model embedding E}.
Arguments get_chroma_client {client E}.
Arguments initialize_gemini {model embedding E}.
Arguments get_gemini_model {model embedding E}.
Arguments get_embedding_model_name {model embedding E}.
Arguments embed_text_gemini {model embedding E}.
Arguments gemini_consistent {model}.

End utils.

(** ** [rag_api/file_processing.py]: text extraction *)

Module extraction.

(** The exception an extractor lets out: every other exception is caught
    and logged where it is raised. *)
Inductive raised := ImportError (message : str).

(** What the loops of [extract_text_from_xlsx] append to [text], one step
    at a time: the header of a sheet, a row of cells ([None] for an empty
    cell, otherwise [str(cell.value)]), the empty line after a sheet. *)
Inductive xlsx_step :=
| SheetStart (sheet_name : str)
| Row (cells : list (option str))
| SheetEnd.

Definition newline : str := [10%N].

(** [sep.join(parts)] *)
Fixpoint join (sep : str) (parts : list str) : str :=
  match parts with
  | [] => []
  | [part] => part
  | part :: rest => part ++ sep ++ join sep rest
  end.

(** [Path(filename).suffix]: the last suffix of the name, with its dot. *)
Definition suffix (filename : str) : str :=
  let name := path_name filename in
  let i := rfind dot name in
  if (0 <? i) && (i <? len name - 1) then slice name i (len name) else [].

Section Extraction.

(** Images of PDF pages, and exceptions of the libraries. *)
Variables image E : Type.

(** [str.lower], which follows the Unicode character database. *)
Variable lower : str → str.

(** The libraries the module imports, [None] for one that is not installed,
    and what they do on a content:
    - [utf8_decode]: [bytes.decode("utf-8")], [None] for
      [UnicodeDecodeError];
    - [pypdf]: the texts of the pages, in order, or the exception raised
      while reading them;
    - [pytesseract], [convert_from_bytes], [Image]: the OCR libraries;
    - [docx]: the texts of the paragraphs that were appended to [text]
      before the [try] block ended, by completion or by an exception;
    - [openpyxl]: likewise, the steps that were completed. *)
Record libraries := Libraries {
  utf8_decode : list N → option str;
  pypdf : option (list N → E + list str);
  pytesseract : option (image → str → E + str);
  convert_from_bytes : option (list N → E + list image);
  Image : bool;
  docx : option (list N → list str);
  openpyxl : option (list N → list xlsx_step)
}.

(** The loops over pages: a page without text adds nothing. *)
Definition add_page (text page_text : str) : str :=
  match page_text with
  | [] => text
  | _ => text ++ page_text ++ newline
  end.

Fixpoint ocr_pages (image_to_string : image → str → E + str) (lang : str)
    (images : list image) (ocr_text : str) : E + str :=
  match images with
  | [] => inr ocr_text
  | img :: rest =>
      match image_to_string img lang with
      | inl e => inl e
      | inr page_ocr_text =>
          ocr_pages image_to_string lang rest (add_page ocr_text page_ocr_text)
      end
  end.

Definition ocr_missing : str :=
  lit "Bibliotecas necess" ++ [225%N]
  ++ lit "rias para OCR (pytesseract, pdf2image, Pillow) n" ++ [227%N]
  ++ lit "o est" ++ [227%N] ++ lit "o dispon" ++ [237%N] ++ lit "veis.".

(** The first [try] block of [extract_text_from_pdf_with_ocr]: whether it
    returned, and the variable [text] after it. *)
Definition direct_extraction (libs : libraries) (file_content : list N)
    : bool * str :=
  match pypdf libs with
  | Some read =>
      match read file_content with
      | inr pages =>
          let text := strip (foldl add_page [] pages) in
          match text with
          | [] => (false, text)
          | _ => (true, text)
          end
      | inl _ => (false, [])
      end
  | None => (false, [])
  end.

(** [extract_text_from_pdf_with_ocr] *)
Definition extract_text_from_pdf_with_ocr (libs : libraries)
    (file_content : list N) (lang : str) : raised + str :=
  let '(returned, text) := direct_extraction libs file_content in
  if returned then inr text
  else
    match pytesseract libs, convert_from_bytes libs, Image libs with
    | Some image_to_string, Some convert, true =>
        match convert file_content with
        | inl _ => inr text
        | inr images =>
            match ocr_pages image_to_string lang images [] with
            | inl _ => inr text
            | inr ocr_text => inr (strip ocr_text)
            end
        end
    | _, _, _ => inl (ImportError ocr_missing)
    end.

(** [extract_text_from_docx] *)
Definition extract_text_from_docx (libs : libraries) (file_content : list N)
    : raised + str :=
  match docx libs with
  | None =>
      inl (ImportError
             (lit "Biblioteca python-docx " ++ [233%N] ++ lit " necess"
              ++ [225%N] ++ lit "ria para processar DOCX."))
  | Some paragraphs =>
      inr (strip (foldl (λ text para, text ++ para ++ newline) []
                    (paragraphs file_content)))
  end.

Definition xlsx_piece (step : xlsx_step) : str :=
  match step with
  | SheetStart sheet_name =>
      lit "--- Folha: " ++ sheet_name ++ lit " ---" ++ newline
  | Row cells => join (lit " | ") (default [] <$> cells) ++ newline
  | SheetEnd => newline
  end.

(** [extract_text_from_xlsx] *)
Definition extract_text_from_xlsx (libs : libraries) (file_content : list N)
    : raised + str :=
  match openpyxl libs with
  | None =>
      inl (ImportError
             (lit "Biblioteca openpyxl " ++ [233%N] ++ lit " necess"
              ++ [225%N] ++ lit "ria para processar XLSX."))
  | Some steps =>
      inr (strip (foldl (λ text step, text ++ xlsx_piece step) []
                    (steps file_content)))
  end.

(** [extract_text_from_txt]: UTF-8, and Latin-1 (every byte is the code
    point of its value) when the content is not UTF-8. *)
Definition extract_text_from_txt (libs : libraries) (file_content : list N)
    : str :=
  match utf8_decode libs file_content with
  | Some text => strip text
  | None => strip file_content
  end.

(** [extract_text_from_file] *)
Definition extract_text_from_file (libs : libraries) (file : uploaded_file)
    : option str * option str :=
  let filename := file_name file in
  let file_content := file_content file in
  let file_extension := lower (suffix filename) in
  let outcome : option (raised + str) :=
    if decide (file_extension = lit ".pdf") then
      Some (extract_text_from_pdf_with_ocr libs file_content (lit "por"))
    else if decide (file_extension = lit ".docx") then
      Some (extract_text_from_docx libs file_content)
    else if decide (file_extension = lit ".xlsx") then
      Some (extract_text_from_xlsx libs file_content)
    else if decide (file_extension = lit ".txt") then
      Some (inr (extract_text_from_txt libs file_content))
    else None in
  match outcome with
  | Some (inr text) => (Some text, None)
  | None =>
      (None,
       Some (lit "Tipo de arquivo n" ++ [227%N] ++ lit "o suportado: "
             ++ file_extension))
  | Some (inl (ImportError e)) =>
      (None,
       Some (lit "Biblioteca necess" ++ [225%N] ++ lit "ria n" ++ [227%N]
             ++ lit "o encontrada para '" ++ file_extension ++ lit "': " ++ e))
  end.

End Extraction.

Arguments Libraries {image E}.
Arguments utf8_decode {image E}.
Arguments pypdf {image E}.
Arguments pytesseract {image E}.
Arguments convert_from_bytes {image E}.
Arguments Image {image E}.
Arguments docx {image E}.
Arguments openpyxl {image E}.
Arguments ocr_pages {image E}.
Arguments direct_extraction {image E}.
Arguments extract_text_from_pdf_with_ocr {image E}.
Arguments extract_text_from_docx {image E}.
Arguments extract_text_from_xlsx {image E}.
Arguments extract_text_from_txt {image E}.
Arguments extract_text_from_file {image E}.

End extraction.

(** ** [rag_api/views.py]: [RagQueryView] *)

Module query_view.

(** The data of a 200 response. *)
Record response_data := ResponseData {
  query : str;
  retrieved_context : list str;
  answer : str;
  model_used : str
}.

(** The status codes the view answers with. *)
Inductive status :=
| HTTP_200_OK
| HTTP_404_NOT_FOUND
| HTTP_500_INTERNAL_SERVER_ERROR
| HTTP_503_SERVICE_UNAVAILABLE.

(** The body of the response, by its kind; the texts of the error messages
    are left out. *)
Inductive body :=
| CollectionNotFound
| ChromaUnavailable
| ConfigurationError
| GeminiError
| UnexpectedError
| Answer (data : response_data).

Definition prompt_head : str :=
  lit "Com base APENAS no contexto fornecido abaixo, responda " ++ [224%N]
  ++ lit " pergunta do usu" ++ [225%N]
  ++ lit "rio. Se o contexto n" ++ [227%N]
  ++ lit "o contiver a resposta, diga que voc" ++ [234%N] ++ lit " n" ++ [227%N]
  ++ lit "o sabe com base nas informa" ++ [231%N; 245%N]
  ++ lit "es dispon" ++ [237%N] ++ lit "veis." ++ [10%N; 10%N]
  ++ lit "Contexto:" ++ [10%N] ++ lit "---" ++ [10%N].

Definition prompt_middle : str :=
  [10%N] ++ lit "---" ++ [10%N; 10%N] ++ lit "Pergunta: ".

Definition prompt_tail : str := [10%N; 10%N] ++ lit "Resposta:".

Definition no_context : str :=
  lit "Nenhum contexto relevante encontrado na base de dados.".

(** [context_string], from the documents that were retrieved. *)
Definition context_string (retrieved_documents : list str) : str :=
  match retrieved_documents with
  | [] => no_context
  | _ => extraction.join [10%N; 10%N] retrieved_documents
  end.

(** The prompt sent to the generative model. *)
Definition prompt (retrieved_documents : list str) (user_query : str) : str :=
  prompt_head ++ context_string retrieved_documents ++ prompt_middle
  ++ user_query ++ prompt_tail.

(** The [except] clauses of the outer [try]. *)
Definition handler (e : exn) : status * body :=
  match e with
  | ConnectionError => (HTTP_503_SERVICE_UNAVAILABLE, ChromaUnavailable)
  | RuntimeError => (HTTP_500_INTERNAL_SERVER_ERROR, ConfigurationError)
  | _ => (HTTP_500_INTERNAL_SERVER_ERROR, UnexpectedError)
  end.

Section View.

(** Embedding vectors and answers of the generative model. *)
Variables embedding gemini_response : Type.

(** What the view finds outside, each of which may raise:
    - [chroma_client]: [get_chroma_client()];
    - [get_collection]: [chroma_client.get_collection(...)];
    - [embed_query]: [embed_text_gemini(user_query, "retrieval_query")];
    - [collection_query]: [collection.query(...)] for an embedding and
      [n_results], giving [results.get("documents")], [None] when the key
      is absent;
    - [gemini_model]: [get_gemini_model()];
    - [generate_content] and [response_text]: the call of the model and
      the reading of [response.text];
    - [validate]: [RagResponseSerializer(data=...)], giving its [data] or
      raising at [is_valid];
    - [model_name]: [settings.GEMINI_MODEL_NAME]. *)
Record services := Services {
  chroma_client : exn + unit;
  get_collection : exn + unit;
  embed_query : str → exn + embedding;
  collection_query : embedding → Z → exn + option (list (list str));
  gemini_model : exn + unit;
  generate_content : str → exn + gemini_response;
  response_text : gemini_response → exn + str;
  validate : response_data → exn + response_data;
  model_name : str
}.

(** [RagQueryView.post] from [validated_data] on. When [generate_content]
    raises, the inner [except] clause reads the local variable [response],
    which has not been assigned: the [UnboundLocalError] it raises is
    caught by the last clause of the outer [try]. *)
Definition post (svc : services) (user_query : str) (top_k : Z)
    : status * body :=
  match chroma_client svc with
  | inl e => handler e
  | inr _ =>
  match get_collection svc with
  | inl _ => (HTTP_404_NOT_FOUND, CollectionNotFound)
  | inr _ =>
  match embed_query svc user_query with
  | inl e => handler e
  | inr query_embedding =>
  match collection_query svc query_embedding top_k with
  | inl e => handler e
  | inr (Some []) => handler OtherError
  | inr documents =>
      let retrieved_documents :=
        match documents with
        | Some (first :: _) => first
        | _ => []
        end in
      let prompt := prompt retrieved_documents user_query in
      match gemini_model svc with
      | inl e => handler e
      | inr _ =>
          match generate_content svc prompt with
          | inl _ => handler OtherError
          | inr response =>
              match response_text svc response with
              | inl _ => (HTTP_500_INTERNAL_SERVER_ERROR, GeminiError)
              | inr answer =>
                  let response_data :=
                    ResponseData user_query retrieved_documents answer
                      (model_name svc) in
                  match validate svc response_data with
                  | inl e => handler e
                  | inr data => (HTTP_200_OK, Answer data)
                  end
              end
          end
      end
  end end end end.

End View.

Arguments Services {embedding gemini_response}.
Arguments chroma_client {embedding gemini_response}.
Arguments get_collection {embedding gemini_response}.
Arguments embed_query {embedding gemini_response}.
Arguments collection_query {embedding gemini_response}.
Arguments gemini_model {embedding gemini_response}.
Arguments generate_content {embedding gemini_response}.
Arguments response_text {embedding gemini_response}.
Arguments validate {embedding gemini_response}.
Arguments model_name {embedding gemini_response}.
Arguments post {embedding gemini_response}.

End query_view.

(** ** Further inputs used as examples *)

(** [str.lower] on a text of ASCII characters. *)
Definition ascii_lower (s : str) : str :=
  (λ c, if in_range 65 90 c then (c + 32)%N else c) <$> s.

(** No library installed but the OCR ones, whose page reader raises;
    UTF-8 decoding as on ASCII content. *)
Definition example_libraries : extraction.libraries unit unit :=
  extraction.Libraries (λ content, Some content) None
    (Some (λ _ _, inl ())) (Some (λ _, inr [()])) true None None.

(** Services of the query view in which the call of the model raises. *)
Definition example_query_services : query_view.services unit unit :=
  query_view.Services (inr ()) (inr ()) (λ _, inr ())
    (λ _ _, inr (Some [[lit "Paris is the capital of France."]]))
    (inr ()) (λ _, inl ValueError) (λ _, inr (lit "Paris."))
    (λ data, inr data) (lit "gemini-1.5-flash").

(** ** Slices *)

Lemma len_nonneg {A} (s : list A) : 0 ≤ len s.
Proof. unfold len. lia. Qed.

Lemma slice_inside {A} (s : list A) (lo hi : Z) :
  0 ≤ lo → lo ≤ hi →
  slice s lo hi = take (Z.to_nat (hi - lo)) (drop (Z.to_nat lo) s).
Proof.
  intros Hlo Hhi. unfold slice, adjust_index.
  assert (Hn := len_nonneg s).
  destruct (Z.ltb_spec lo 0); [lia|].
  destruct (Z.ltb_spec hi 0); [lia|].
  destruct (Z.le_gt_cases lo (len s)) as [Hle|Hgt].
  - rewrite (Z.min_l lo) by lia.
    destruct (Z.le_gt_cases hi (len s)).
    + by rewrite (Z.min_l hi) by lia.
    + rewrite (Z.min_r hi) by lia.
      rewrite !take_ge; [done| |]; rewrite length_drop; unfold len in *; lia.
  - rewrite (Z.min_r lo), (Z.min_r hi) by lia.
    rewrite !drop_ge by (unfold len in *; lia).
    by rewrite !take_nil.
Qed.

Lemma slice_inside' {A} (s : list A) (lo size : Z) :
  0 ≤ lo → 0 ≤ size →
  slice s lo (lo + size) = take (Z.to_nat size) (drop (Z.to_nat lo) s).
Proof.
  intros. rewrite slice_inside by lia. do 2 f_equal. lia.
Qed.

Lemma slice_length {A} (s : list A) (lo hi : Z) :
  0 ≤ lo → lo ≤ hi → lo ≤ len s →
  len (slice s lo hi) = Z.min (hi - lo) (len s - lo).
Proof.
  intros. rewrite slice_inside by done.
  unfold len in *. rewrite length_take, length_drop. lia.
Qed.

Lemma slice_to_end {A} (s : list A) (lo hi : Z) :
  0 ≤ lo → len s ≤ hi → slice s lo hi = drop (Z.to_nat lo) s.
Proof.
  intros Hlo Hhi. assert (Hn := len_nonneg s).
  destruct (Z.le_gt_cases lo hi).
  - rewrite slice_inside by done.
    apply take_ge. rewrite length_drop. unfold len in *. lia.
  - unfold slice, adjust_index.
    destruct (Z.ltb_spec lo 0); [lia|]. destruct (Z.ltb_spec hi 0); [lia|].
    rewrite drop_ge by (unfold len in *; lia). by rewrite take_nil, drop_ge by (unfold len in *; lia).
Qed.

Lemma slice_lookup {A} (s : list A) (lo hi : Z) (k : nat) :
  0 ≤ lo → lo ≤ hi → (Z.of_nat k < hi - lo) →
  slice s lo hi !! k = s !! (Z.to_nat lo + k)%nat.
Proof.
  intros. rewrite slice_inside by done.
  rewrite lookup_take_lt by lia. by rewrite lookup_drop.
Qed.

(** ** The loop: fuel and determinism *)

Lemma while_more_fuel fuel fuel' text chunk_size chunk_overlap st result :
  while fuel text chunk_size chunk_overlap st = Some result →
  (fuel ≤ fuel')%nat →
  while fuel' text chunk_size chunk_overlap st = Some result.
Proof.
  revert fuel' st. induction fuel as [|fuel IH]; intros fuel' st Hrun Hle.
  - discriminate.
  - destruct fuel' as [|fuel']; [lia|]. simpl in *.
    destruct (loop_body text chunk_size chunk_overlap st); [|done].
    apply IH; [done|lia].
Qed.

Lemma trace_returns_unique text chunk_size chunk_overlap es es' :
  trace_returns text chunk_size chunk_overlap es →
  trace_returns text chunk_size chunk_overlap es' →
  es = es'.
Proof.
  intros [f Hf] [f' Hf']. unfold simple_chunker_trace in *.
  destruct text as [|c text]; [congruence|].
  apply (while_more_fuel _ (f `max` f')%nat) in Hf; [|lia].
  apply (while_more_fuel _ (f `max` f')%nat) in Hf'; [|lia].
  congruence.
Qed.

Lemma returns_trace text chunk_size chunk_overlap cs :
  returns text chunk_size chunk_overlap cs ↔
  ∃ es, trace_returns text chunk_size chunk_overlap es ∧ cs = content <$> es.
Proof.
  unfold returns, trace_returns, simple_chunker. split.
  - intros [fuel Hrun].
    destruct (simple_chunker_trace fuel text chunk_size chunk_overlap) as [es|] eqn:E;
      [|done].
    exists es. split; [by exists fuel|congruence].
  - intros (es & [fuel Hrun] & ->). exists fuel. by rewrite Hrun.
Qed.

(** Length of the chunk cut at an offset inside the text. *)
Lemma cut_length text chunk_size o :
  0 ≤ chunk_size →
  0 ≤ o < len text →
  len (content (cut text chunk_size o)) = Z.min chunk_size (len text - o).
Proof.
  intros. simpl. rewrite slice_length by lia. f_equal. lia.
Qed.

(** ** A valid configuration: [0 ≤ chunk_overlap < chunk_size] *)

Section ValidConfiguration.

Variable text : str.
Variables chunk_size chunk_overlap : Z.
Hypothesis overlap_valid : 0 ≤ chunk_overlap < chunk_size.

Local Abbreviation step := (chunk_size - chunk_overlap).

(** With [start] inside the text and as many loop tests allowed as
    characters remain, the loop returns, and the chunks it appends are the
    ones cut at the offsets it visits. *)
Lemma while_visits fuel s acc :
  0 ≤ s < len text →
  len text - s ≤ Z.of_nat fuel →
  ∃ offs,
    visits text chunk_size chunk_overlap s offs ∧
    while fuel text chunk_size chunk_overlap (LoopState s acc)
    = Some (acc ++ (cut text chunk_size <$> offs)).
Proof.
  revert s acc. induction fuel as [|fuel IH]; intros s acc Hs Hfuel; [lia|].
  simpl. unfold loop_body. simpl.
  destruct (Z.ltb_spec s (len text)); [|lia].
  destruct (Z.leb_spec (len text) (s + chunk_size)).
  - exists [s]. split; [by constructor|done].
  - destruct (Z.ltb_spec (s + step) 0); [lia|].
    destruct (IH (s + step) (acc ++ [Emitted s (slice text s (s + chunk_size))]))
      as (offs & Hvis & Hrun); [lia|lia|].
    exists (s :: offs). split; [by constructor|].
    rewrite Hrun. by rewrite <- app_assoc.
Qed.

Lemma visits_nonempty s offs :
  visits text chunk_size chunk_overlap s offs → ∃ offs', offs = s :: offs'.
Proof. destruct 1; eauto. Qed.

(** The [i]-th offset is [s + i * step]; it lies inside the text. *)
Lemma visits_lookup s offs (i : nat) o :
  visits text chunk_size chunk_overlap s offs →
  0 ≤ s < len text →
  offs !! i = Some o →
  o = s + Z.of_nat i * step ∧ 0 ≤ o < len text.
Proof.
  intros Hvis. revert i. induction Hvis as [s Hend|s offs Hmore Hvis IH];
    intros i Hs Hi.
  - destruct i as [|i]; simpl in Hi; [|done]. simplify_eq. lia.
  - destruct i as [|i]; simpl in Hi.
    + simplify_eq. lia.
    + destruct (IH i) as [-> ?]; [lia|done|]. lia.
Qed.

(** Every window but the last ends before the end of the text; the last
    one reaches it. *)
Lemma visits_window s offs (i : nat) o :
  visits text chunk_size chunk_overlap s offs →
  offs !! i = Some o →
  if decide (S i = length offs) then len text ≤ o + chunk_size
  else o + chunk_size < len text.
Proof.
  intros Hvis. revert i. induction Hvis as [s Hend|s offs Hmore Hvis IH];
    intros i Hi.
  - destruct i as [|i]; simpl in Hi; [|done]. simplify_eq.
    by rewrite decide_True.
  - destruct i as [|i]; simpl in Hi.
    + simplify_eq. destruct (visits_nonempty _ _ Hvis) as [offs' ->].
      by rewrite decide_False.
    + specialize (IH i Hi). simpl.
      destruct (decide (S i = length offs));
        [rewrite decide_True by lia|rewrite decide_False by lia]; done.
Qed.

(** Every index from [s] on lies in the window of a visited offset. *)
Lemma visits_cover s offs k :
  visits text chunk_size chunk_overlap s offs →
  s ≤ k < len text →
  ∃ i o, offs !! i = Some o ∧ o ≤ k < o + chunk_size.
Proof.
  intros Hvis. induction Hvis as [s Hend|s offs Hmore Hvis IH]; intros Hk.
  - exists 0%nat, s. split; [done|lia].
  - destruct (Z.lt_ge_cases k (s + chunk_size)).
    + exists 0%nat, s. split; [done|lia].
    + destruct IH as (i & o & Hi & Ho); [lia|].
      exists (S i), o. by split.
Qed.

(** Putting the chunks from offset [s] on together gives the text from
    [s] on. *)
Lemma visits_reassemble s offs :
  visits text chunk_size chunk_overlap s offs →
  0 ≤ s < len text →
  reassemble chunk_overlap (content <$> (cut text chunk_size <$> offs))
  = drop (Z.to_nat s) text.
Proof.
  intros Hvis. induction Hvis as [s Hend|s offs Hmore Hvis IH]; intros Hs.
  - simpl. rewrite app_nil_r. apply slice_to_end; lia.
  - destruct (visits_nonempty _ _ Hvis) as [offs' ->].
    specialize (IH ltac:(lia)). simpl in *.
    set (c' := slice text (s + step) (s + step + chunk_size)) in *.
    set (rest := concat _) in *.
    assert (Hc' : len c' = Z.min chunk_size (len text - (s + step))).
    { unfold c'. rewrite slice_length by lia. f_equal. lia. }
    rewrite (slice_to_end c') by lia.
    rewrite <- (take_drop (Z.to_nat chunk_size) (drop (Z.to_nat s) text)) at 1.
    rewrite <- slice_inside' by lia.
    f_equal.
    rewrite drop_drop.
    replace (Z.to_nat s + Z.to_nat chunk_size)%nat
      with (Z.to_nat (s + step) + Z.to_nat chunk_overlap)%nat by lia.
    rewrite <- drop_drop, <- IH.
    rewrite drop_app_le; [done|].
    unfold len in *. lia.
Qed.

End ValidConfiguration.

(** For a non-empty text and a valid configuration the call returns as soon
    as it is allowed as many loop tests as the text has characters, and its
    chunks are cut at the offsets visited from 0. *)
Lemma trace_valid text chunk_size chunk_overlap :
  text ≠ [] →
  0 ≤ chunk_overlap < chunk_size →
  ∃ offs,
    visits text chunk_size chunk_overlap 0 offs ∧
    ∀ fuel, (length text ≤ fuel)%nat →
      simple_chunker_trace fuel text chunk_size chunk_overlap
      = Some (cut text chunk_size <$> offs).
Proof.
  intros Hne Hov.
  assert (0 < len text) by (destruct text; [done|unfold len; simpl; lia]).
  destruct (while_visits text chunk_size chunk_overlap Hov (length text) 0 [])
    as (offs & Hvis & Hrun); [lia|unfold len; lia|].
  exists offs. split; [done|]. intros fuel Hfuel.
  unfold simple_chunker_trace. destruct text; [done|].
  by apply (while_more_fuel (length (n :: text))).
Qed.

Lemma trace_returns_valid text chunk_size chunk_overlap es :
  text ≠ [] →
  0 ≤ chunk_overlap < chunk_size →
  trace_returns text chunk_size chunk_overlap es →
  ∃ offs,
    visits text chunk_size chunk_overlap 0 offs ∧
    es = cut text chunk_size <$> offs.
Proof.
  intros Hne Hov Hret.
  destruct (trace_valid text chunk_size chunk_overlap Hne Hov)
    as (offs & Hvis & Hrun).
  exists offs. split; [done|].
  eapply trace_returns_unique; [done|]. exists (length text). by apply Hrun.
Qed.

(** With [chunk_overlap ≥ chunk_size] the next [start] is 0 again, and a
    text longer than one chunk keeps the loop running. *)
Lemma while_stuck text chunk_size chunk_overlap fuel acc :
  text ≠ [] →
  chunk_size ≤ chunk_overlap →
  chunk_size < len text →
  while fuel text chunk_size chunk_overlap (LoopState 0 acc) = None.
Proof.
  intros Hne Hov Hlong.
  assert (0 < len text) by (destruct text; [done|unfold len; simpl; lia]).
  revert acc. induction fuel as [|fuel IH]; intros acc; [done|].
  simpl. unfold loop_body. simpl. rewrite !Z.add_0_l.
  destruct (Z.ltb_spec 0 (len text)); [|lia].
  destruct (Z.leb_spec (len text) chunk_size); [lia|].
  destruct (Z.ltb_spec (chunk_size - chunk_overlap) 0).
  - apply IH.
  - replace (chunk_size - chunk_overlap) with 0 by lia. apply IH.
Qed.

(** ** Properties of [simple_chunker] *)

(** C1 (as the code behaves): with [chunk_size = chunk_overlap = 10] and
    the text ['x' * 100], the call does not return, however many loop tests
    it is allowed: [start] stays 0 and the window [0, 10) never reaches the
    end of the text. *)
Theorem chunker_overlap_equal_size_never_returns :
  ∀ fuel, simple_chunker fuel (replicate 100 120%N) 10 10 = None.
Proof.
  intros fuel. unfold simple_chunker, simple_chunker_trace.
  change (replicate 100 120%N) with (120%N :: replicate 99 120%N).
  rewrite while_stuck; [done|done|lia|].
  unfold len. rewrite length_cons, length_replicate. lia.
Qed.

(** C2: for a non-empty text and [0 ≤ chunk_overlap < chunk_size] the call
    returns, and the first chunk followed by every later chunk without its
    first [chunk_overlap] characters is the text. *)
Theorem chunker_round_trip text chunk_size chunk_overlap :
  text ≠ [] →
  0 ≤ chunk_overlap < chunk_size →
  (∃ cs, returns text chunk_size chunk_overlap cs) ∧
  ∀ cs, returns text chunk_size chunk_overlap cs →
    reassemble chunk_overlap cs = text.
Proof.
  intros Hne Hov. split.
  - destruct (trace_valid text chunk_size chunk_overlap Hne Hov)
      as (offs & _ & Hrun).
    exists (content <$> (cut text chunk_size <$> offs)).
    apply returns_trace. eexists. split; [|done].
    exists (length text). by apply Hrun.
  - intros cs (es & Hes & ->)%returns_trace.
    destruct (trace_returns_valid _ _ _ _ Hne Hov Hes) as (offs & Hvis & ->).
    assert (0 < len text) by (destruct text; [done|unfold len; simpl; lia]).
    rewrite (visits_reassemble text chunk_size chunk_overlap Hov 0 offs Hvis)
      by lia.
    done.
Qed.

Lemma chunker_round_trip_witness :
  reassemble 1 [lit "abcd"; lit "defg"; lit "ghij"] = lit "abcdefghij".
Proof.
  apply (chunker_round_trip (lit "abcdefghij") 4 1); [done|lia|].
  exists 3%nat. reflexivity.
Defined.

(** C3: for a non-empty text and [0 ≤ chunk_overlap < chunk_size] the call
    returns; each chunk is the slice of the text at its offset; every
    character index of the text lies in a chunk, which holds the character
    of the text there; the last chunk ends where the text ends; and every
    chunk starts inside the text. *)
Theorem chunker_coverage text chunk_size chunk_overlap :
  text ≠ [] →
  0 ≤ chunk_overlap < chunk_size →
  (∃ es, trace_returns text chunk_size chunk_overlap es) ∧
  ∀ es, trace_returns text chunk_size chunk_overlap es →
    (∀ e, e ∈ es →
       content e = slice text (offset e) (offset e + chunk_size)) ∧
    (∀ (k : nat) x, text !! k = Some x →
       ∃ e, e ∈ es ∧
         offset e ≤ Z.of_nat k < offset e + len (content e) ∧
         content e !! Z.to_nat (Z.of_nat k - offset e) = Some x) ∧
    (∃ e, last es = Some e ∧ offset e + len (content e) = len text) ∧
    (∀ e, e ∈ es → 0 ≤ offset e < len text).
Proof.
  intros Hne Hov.
  assert (Hpos : 0 < len text) by (destruct text; [done|unfold len; simpl; lia]).
  split.
  { destruct (trace_valid text chunk_size chunk_overlap Hne Hov)
      as (offs & _ & Hrun).
    eexists. exists (length text). by apply Hrun. }
  intros es Hes.
  destruct (trace_returns_valid _ _ _ _ Hne Hov Hes) as (offs & Hvis & ->).
  assert (Hin : ∀ e, e ∈ cut text chunk_size <$> offs →
            ∃ i o, offs !! i = Some o ∧ e = cut text chunk_size o ∧
                   0 ≤ o < len text).
  { intros e (o & -> & (i & Hi)%list_elem_of_lookup)%list_elem_of_fmap.
    exists i, o. repeat split; try done;
      eapply (visits_lookup text chunk_size chunk_overlap Hov 0 offs i o);
      (done || lia). }
  repeat split.
  - intros e (i & o & _ & -> & _)%Hin. done.
  - intros k x Hk.
    assert (Z.of_nat k < len text)
      by (apply lookup_lt_Some in Hk; unfold len; lia).
    destruct (visits_cover text chunk_size chunk_overlap Hov 0 offs (Z.of_nat k) Hvis)
      as (i & o & Hi & Ho); [lia|].
    destruct (visits_lookup text chunk_size chunk_overlap Hov 0 offs i o)
      as [_ Hbound]; [done|lia|done|].
    exists (cut text chunk_size o). split_and!.
    + apply list_elem_of_fmap. exists o. split; [done|].
      by eapply list_elem_of_lookup_2.
    + simpl. lia.
    + rewrite cut_length by lia. simpl. lia.
    + simpl. rewrite slice_lookup by lia. rewrite <- Hk. f_equal. lia.
  - destruct (last offs) as [o|] eqn:Hlast.
    + exists (cut text chunk_size o). split; [by rewrite fmap_last, Hlast|].
      rewrite last_lookup in Hlast.
      assert (Hw := visits_window text chunk_size chunk_overlap 0 offs _ o Hvis Hlast).
      destruct (visits_nonempty _ _ _ _ _ Hvis) as [offs' ->].
      destruct (visits_lookup text chunk_size chunk_overlap Hov 0 _ _ o Hvis
                  ltac:(lia) Hlast) as [_ Hbound].
      rewrite decide_True in Hw by (simpl; lia).
      rewrite cut_length by lia. simpl. lia.
    + apply last_None in Hlast. subst.
      by destruct (visits_nonempty _ _ _ _ _ Hvis).
  - destruct (Hin e) as (i & o & _ & -> & Hbound); [done|]. simpl. lia.
  - destruct (Hin e) as (i & o & _ & -> & Hbound); [done|]. simpl. lia.
Qed.

Lemma chunker_coverage_witness :
  ∃ e,
    last [Emitted 0 (lit "abcd"); Emitted 3 (lit "defg"); Emitted 6 (lit "ghij")]
    = Some e ∧
    offset e + len (content e) = len (lit "abcdefghij").
Proof.
  destruct (chunker_coverage (lit "abcdefghij") 4 1 ltac:(done) ltac:(lia))
    as [_ Hall].
  destruct (Hall [Emitted 0 (lit "abcd"); Emitted 3 (lit "defg");
                  Emitted 6 (lit "ghij")]) as (_ & _ & Hlast & _).
  - exists 3%nat. reflexivity.
  - exact Hlast.
Defined.

(** C9: for a non-empty text and [0 ≤ chunk_overlap < chunk_size] the call
    returns; every chunk is non-empty and at most [chunk_size] long; every
    chunk but the last is exactly [chunk_size] long; and the offsets of
    consecutive chunks differ by [chunk_size - chunk_overlap]. *)
Theorem chunker_chunk_lengths text chunk_size chunk_overlap :
  text ≠ [] →
  0 ≤ chunk_overlap < chunk_size →
  (∃ es, trace_returns text chunk_size chunk_overlap es) ∧
  ∀ es, trace_returns text chunk_size chunk_overlap es →
    (∀ e, e ∈ es → 0 < len (content e) ≤ chunk_size) ∧
    (∀ (i : nat) e, es !! i = Some e → S i ≠ length es →
       len (content e) = chunk_size) ∧
    (∀ (i : nat) e e', es !! i = Some e → es !! S i = Some e' →
       offset e' - offset e = chunk_size - chunk_overlap).
Proof.
  intros Hne Hov.
  assert (Hpos : 0 < len text) by (destruct text; [done|unfold len; simpl; lia]).
  split.
  { destruct (trace_valid text chunk_size chunk_overlap Hne Hov)
      as (offs & _ & Hrun).
    eexists. exists (length text). by apply Hrun. }
  intros es Hes.
  destruct (trace_returns_valid _ _ _ _ Hne Hov Hes) as (offs & Hvis & ->).
  assert (Hat : ∀ (i : nat) e, (cut text chunk_size <$> offs) !! i = Some e →
            ∃ o, offs !! i = Some o ∧ e = cut text chunk_size o ∧
                 o = Z.of_nat i * (chunk_size - chunk_overlap) ∧
                 0 ≤ o < len text).
  { intros i e Hi. rewrite list_lookup_fmap in Hi.
    destruct (offs !! i) as [o|] eqn:Ho; [|done]. simplify_eq/=.
    exists o. split_and!; try done;
      destruct (visits_lookup text chunk_size chunk_overlap Hov 0 offs i o);
      (done || lia). }
  split_and!.
  - intros e (i & Hi)%list_elem_of_lookup.
    destruct (Hat i e Hi) as (o & _ & -> & _ & Hbound).
    rewrite cut_length by lia. lia.
  - intros i e Hi Hnotlast.
    destruct (Hat i e Hi) as (o & Ho & -> & _ & Hbound).
    assert (Hw := visits_window text chunk_size chunk_overlap 0 offs i o Hvis Ho).
    rewrite length_fmap in Hnotlast.
    rewrite decide_False in Hw by done.
    rewrite cut_length by lia. lia.
  - intros i e e' Hi Hi'.
    destruct (Hat i e Hi) as (o & _ & -> & -> & _).
    destruct (Hat (S i) e' Hi') as (o' & _ & -> & -> & _).
    simpl. lia.
Qed.

Lemma chunker_chunk_lengths_witness :
  len (content (Emitted 0 (lit "abcd"))) = 4 ∧
  offset (Emitted 3 (lit "defg")) - offset (Emitted 0 (lit "abcd")) = 4 - 1.
Proof.
  destruct (chunker_chunk_lengths (lit "abcdefghij") 4 1 ltac:(done) ltac:(lia))
    as [_ Hall].
  destruct (Hall [Emitted 0 (lit "abcd"); Emitted 3 (lit "defg");
                  Emitted 6 (lit "ghij")]) as (_ & Hfull & Hstep).
  - exists 3%nat. reflexivity.
  - split.
    + by apply (Hfull 0%nat).
    + by apply (Hstep 0%nat).
Defined.

(** One pass through the loop, when the window ends before the end of the
    text and when it reaches it. *)
Lemma loop_body_next text chunk_size chunk_overlap s acc :
  s + chunk_size < len text →
  0 ≤ chunk_size →
  0 ≤ s + (chunk_size - chunk_overlap) →
  loop_body text chunk_size chunk_overlap (LoopState s acc)
  = Next (LoopState (s + (chunk_size - chunk_overlap))
            (acc ++ [cut text chunk_size s])).
Proof.
  intros. unfold loop_body. simpl.
  destruct (Z.ltb_spec s (len text)); [|lia].
  destruct (Z.leb_spec (len text) (s + chunk_size)); [lia|].
  destruct (Z.ltb_spec (s + (chunk_size - chunk_overlap)) 0); [lia|done].
Qed.

Lemma loop_body_exit text chunk_size chunk_overlap s acc :
  s < len text →
  len text ≤ s + chunk_size →
  loop_body text chunk_size chunk_overlap (LoopState s acc)
  = Exit (acc ++ [cut text chunk_size s]).
Proof.
  intros. unfold loop_body. simpl.
  destruct (Z.ltb_spec s (len text)); [|lia].
  destruct (Z.leb_spec (len text) (s + chunk_size)); [done|lia].
Qed.

Lemma while_S fuel text chunk_size chunk_overlap st :
  while (S fuel) text chunk_size chunk_overlap st
  = match loop_body text chunk_size chunk_overlap st with
    | Exit result => Some result
    | Next st' => while fuel text chunk_size chunk_overlap st'
    end.
Proof. done. Qed.

(** C6: for a text of length 3200, [chunk_size = 1500] and
    [chunk_overlap = 150], the call returns after three passes through the
    loop, with the three chunks cut at the offsets 0, 1350 and 2700; they
    are the slices [0, 1500), [1350, 2850) and [2700, 3200) of the text, of
    lengths 1500, 1500 and 500; two passes are not enough. *)
Theorem chunker_example_3200 text :
  len text = 3200 →
  ∀ fuel,
    simple_chunker_trace (3 + fuel) text 1500 150
    = Some [Emitted 0 (slice text 0 1500);
            Emitted 1350 (slice text 1350 2850);
            Emitted 2700 (slice text 2700 3200)] ∧
    simple_chunker (3 + fuel) text 1500 150
    = Some [slice text 0 1500; slice text 1350 2850; slice text 2700 3200] ∧
    len (slice text 0 1500) = 1500 ∧
    len (slice text 1350 2850) = 1500 ∧
    len (slice text 2700 3200) = 500 ∧
    simple_chunker 2 text 1500 150 = None.
Proof.
  intros Hlen fuel.
  assert (Hrun : simple_chunker_trace (3 + fuel) text 1500 150
            = Some [Emitted 0 (slice text 0 1500);
                    Emitted 1350 (slice text 1350 2850);
                    Emitted 2700 (slice text 2700 3200)]).
  { unfold simple_chunker_trace.
    destruct text as [|c text'] eqn:Htext; [done|]. rewrite <- Htext in *.
    change (3 + fuel)%nat with (S (S (S fuel))).
    rewrite while_S, loop_body_next by lia.
    rewrite while_S, loop_body_next by lia.
    rewrite while_S, loop_body_exit by lia.
    transitivity
      (Some [cut text 1500 0; cut text 1500 1350; cut text 1500 2700]);
      [reflexivity|].
    unfold cut. change (0 + 1500) with 1500. change (1350 + 1500) with 2850.
    rewrite (slice_to_end text 2700 (2700 + 1500)) by lia.
    rewrite (slice_to_end text 2700 3200) by lia.
    done. }
  split_and!.
  - done.
  - unfold simple_chunker. by rewrite Hrun.
  - rewrite slice_length by lia. lia.
  - rewrite slice_length by lia. lia.
  - rewrite slice_length by lia. lia.
  - unfold simple_chunker, simple_chunker_trace.
    destruct text as [|c text'] eqn:Htext; [done|]. rewrite <- Htext in *.
    rewrite while_S, loop_body_next by lia.
    rewrite while_S, loop_body_next by lia.
    done.
Qed.

Lemma chunker_example_3200_witness :
  simple_chunker 3 (replicate 3200 120%N) 1500 150
  = Some [slice (replicate 3200 120%N) 0 1500;
          slice (replicate 3200 120%N) 1350 2850;
          slice (replicate 3200 120%N) 2700 3200].
Proof.
  apply (chunker_example_3200 (replicate 3200 120%N) ltac:(reflexivity) 0%nat).
Defined.

(** C7: on the empty string the call returns the empty list, whatever the
    configuration; on ["abc"] with [chunk_size = 10] and
    [chunk_overlap = 0] it returns [["abc"]] after one pass. *)
Theorem chunker_boundary :
  (∀ fuel chunk_size chunk_overlap,
     simple_chunker fuel [] chunk_size chunk_overlap = Some []) ∧
  (∀ fuel, simple_chunker (S fuel) (lit "abc") 10 0 = Some [lit "abc"]).
Proof.
  split; [done|]. intros fuel. reflexivity.
Qed.

(** ** Literals and decimal numerals *)

Lemma lit_cons a s : lit (String a s) = N_of_ascii a :: lit s.
Proof. done. Qed.

Lemma lit_inj s s' : lit s = lit s' → s = s'.
Proof.
  revert s'. induction s as [|a s IH]; intros [|a' s'] Heq; try done.
  rewrite !lit_cons in Heq. injection Heq as Ha Hs.
  f_equal; [|by apply IH].
  by rewrite <- (ascii_N_embedding a), <- (ascii_N_embedding a'), Ha.
Qed.

Lemma to_int_proper z : Z.to_int z ≠ Pos Nil ∧ Z.to_int z ≠ Neg Nil.
Proof.
  destruct z as [|p|p]; simpl; split; try done;
    intros [= Hnil]; by apply (DecimalPos.Unsigned.to_uint_nonnil p).
Qed.

Lemma str_of_int_inj z z' : str_of_int z = str_of_int z' → z = z'.
Proof.
  intros Heq%lit_inj. apply DecimalZ.to_int_inj.
  destruct (to_int_proper z), (to_int_proper z').
  assert (Some (Z.to_int z) = Some (Z.to_int z')) as [= ->]; [|done].
  rewrite <- !NilZero.isi by done. by rewrite Heq.
Qed.

Lemma string_of_uint_chars d :
  Forall numeral_char (lit (NilEmpty.string_of_uint d)).
Proof.
  induction d; cbn [NilEmpty.string_of_uint]; try rewrite lit_cons;
    constructor; (done || (right; vm_compute; split; discriminate)).
Qed.

Lemma str_of_int_chars z : Forall numeral_char (str_of_int z).
Proof.
  unfold str_of_int.
  assert (Hu : ∀ d, Forall numeral_char (lit (NilZero.string_of_uint d))).
  { intros d. destruct d; try apply string_of_uint_chars.
    constructor; [|constructor]. right. vm_compute. split; discriminate. }
  destruct (Z.to_int z) as [d|d]; simpl.
  - apply Hu.
  - rewrite lit_cons. constructor; [by left|apply Hu].
Qed.

Lemma contains_false_Forall c s :
  Forall (λ x, x ≠ c) s → contains c s = false.
Proof.
  unfold contains. induction 1 as [|x s Hx _ IH]; [done|]. simpl.
  rewrite IH. by destruct (N.eqb_spec c x).
Qed.

(** ** Properties of [generate_chunk_ids] *)

Section Ids.

Context `{unicode_db}.

Lemma chunk_id_inj base_name timestamp i j :
  chunk_id base_name timestamp i = chunk_id base_name timestamp j → i = j.
Proof.
  unfold chunk_id. intros Heq.
  by do 4 apply app_inv_head in Heq; apply str_of_int_inj.
Qed.

Lemma generate_chunk_ids_eq now filename num_chunks :
  generate_chunk_ids now filename num_chunks
  = chunk_id (base_name_safe filename) now <$> seqZ 0 num_chunks.
Proof. done. Qed.

Lemma generate_chunk_ids_length now filename num_chunks :
  length (generate_chunk_ids now filename num_chunks) = Z.to_nat num_chunks.
Proof. by rewrite generate_chunk_ids_eq, length_fmap, length_seqZ. Qed.

Lemma base_name_safe_eq filename :
  base_name_safe filename
  = take 50 ((λ c, if isalnum c then c else underscore) <$> stem filename).
Proof.
  unfold base_name_safe. rewrite slice_inside by lia. by rewrite drop_0.
Qed.

Lemma generate_chunk_ids_lookup now filename num_chunks (i : nat) :
  generate_chunk_ids now filename num_chunks !! i
  = if decide (Z.of_nat i < num_chunks)
    then Some (chunk_id (base_name_safe filename) now (Z.of_nat i))
    else None.
Proof.
  rewrite generate_chunk_ids_eq, list_lookup_fmap. case_decide.
  - by rewrite lookup_seqZ_lt by done.
  - by rewrite lookup_seqZ_ge by lia.
Qed.

Lemma generate_chunk_ids_NoDup now filename num_chunks :
  NoDup (generate_chunk_ids now filename num_chunks).
Proof.
  rewrite generate_chunk_ids_eq. apply NoDup_fmap_2_strong; [|apply NoDup_seqZ].
  intros i j _ _. apply chunk_id_inj.
Qed.

(** C4: the call returns [chunk_count] strings; the one at index
    [i < chunk_count] is the base name, ["_"], the timestamp, ["_chunk_"]
    and [i], with one base name and one timestamp for all of them; the
    strings are pairwise distinct. For ["My Report.pdf"] and 3 they are
    ["My_Report_<timestamp>_chunk_0"], [.._1] and [.._2]. *)
Theorem generate_chunk_ids_aligned now filename (chunk_count : nat) :
  let ids := generate_chunk_ids now filename (Z.of_nat chunk_count) in
  length ids = chunk_count ∧
  (∀ i : nat,
     ids !! i
     = if decide (i < chunk_count)%nat
       then Some (base_name_safe filename ++ lit "_" ++ str_of_int now
                    ++ lit "_chunk_" ++ str_of_int (Z.of_nat i))
       else None) ∧
  NoDup ids ∧
  generate_chunk_ids now (lit "My Report.pdf") 3
  = [lit "My_Report_" ++ str_of_int now ++ lit "_chunk_0";
     lit "My_Report_" ++ str_of_int now ++ lit "_chunk_1";
     lit "My_Report_" ++ str_of_int now ++ lit "_chunk_2"].
Proof.
  split_and!.
  - rewrite generate_chunk_ids_length. lia.
  - intros i. rewrite generate_chunk_ids_lookup.
    destruct (decide (Z.of_nat i < Z.of_nat chunk_count)),
      (decide (i < chunk_count)%nat); (done || lia).
  - apply generate_chunk_ids_NoDup.
  - rewrite generate_chunk_ids_eq.
    replace (base_name_safe (lit "My Report.pdf")) with (lit "My_Report")
      by (vm_compute; reflexivity).
    reflexivity.
Qed.

(** C5: the base name of the identifiers is the stem of the file name (its
    last path component without the last suffix) in which every character
    that is not alphanumeric is replaced by an underscore, cut to its first
    50 characters; every identifier starts with it. The identifier for
    ["weird/name!.txt"] has no ['/'] and no ['!'] in it. *)
Theorem generate_chunk_ids_sanitized now filename :
  let base := base_name_safe filename in
  len base = Z.min 50 (len (stem filename)) ∧
  (∀ i : nat,
     base !! i
     = if decide (i < 50)%nat
       then (λ c, if isalnum c then c else underscore) <$> stem filename !! i
       else None) ∧
  Forall (λ c, isalnum c = true ∨ c = underscore) base ∧
  (∀ num_chunks,
     Forall (λ id, ∃ rest, id = base ++ lit "_" ++ rest)
       (generate_chunk_ids now filename num_chunks)) ∧
  ∃ id,
    generate_chunk_ids now (lit "weird/name!.txt") 1 = [id] ∧
    contains slash id = false ∧ contains 33%N id = false.
Proof.
  split_and!.
  - rewrite base_name_safe_eq. unfold len.
    rewrite length_take, length_fmap. lia.
  - intros i. rewrite base_name_safe_eq. case_decide.
    + by rewrite lookup_take_lt, list_lookup_fmap by done.
    + by rewrite lookup_take_ge by lia.
  - rewrite base_name_safe_eq. apply Forall_take. rewrite Forall_fmap.
    apply Forall_forall. intros c _. simpl.
    destruct (isalnum c) eqn:Hc; auto.
  - intros num_chunks. rewrite generate_chunk_ids_eq, Forall_fmap.
    apply Forall_forall. intros i _. simpl. unfold chunk_id. eauto.
  - eexists. split; [reflexivity|].
    replace (base_name_safe (lit "weird/name!.txt")) with (lit "name_")
      by (vm_compute; reflexivity).
    assert (Hnum : Forall (λ x, x ≠ slash ∧ x ≠ 33%N) (str_of_int now)).
    { eapply Forall_impl; [apply str_of_int_chars|].
      intros c [->|Hc]; [done|]. unfold slash. lia. }
    split; apply contains_false_Forall; rewrite !Forall_app; split_and!;
      try (eapply Forall_impl; [apply Hnum|]; by intros c []);
      (eapply bool_decide_unpack; vm_compute; exact I).
Qed.

End Ids.

(** ** Properties of the ingesting views *)

Lemma default_metadata_non_empty : default_metadata ≠ ∅.
Proof. apply map_non_empty_singleton. Qed.

Lemma prepared_metadata_non_empty doc : prepared_metadata doc ≠ ∅.
Proof.
  unfold prepared_metadata. destruct (doc_metadata doc) as [m|].
  - destruct (Nat.eqb_spec (size m) 0) as [|Hsize].
    + apply default_metadata_non_empty.
    + by apply map_size_non_empty_iff.
  - apply default_metadata_non_empty.
Qed.

(** The three lists after the [for] loop: one entry per document, in the
    order of the documents. *)
Lemma ingest_loop docs ids texts metadatas :
  foldl ingest_step (ids, texts, metadatas) docs
  = (ids ++ (doc_id <$> docs), texts ++ (doc_text <$> docs),
     metadatas ++ (prepared_metadata <$> docs)).
Proof.
  revert ids texts metadatas.
  induction docs as [|doc docs IH]; intros ids texts metadatas; simpl.
  - by rewrite !app_nil_r.
  - assert (ingest_step (ids, texts, metadatas) doc
            = (ids ++ [doc_id doc], texts ++ [doc_text doc],
               metadatas ++ [prepared_metadata doc])) as ->.
    { unfold ingest_step, prepared_metadata.
      destruct (doc_metadata doc) as [m|]; [|done].
      by destruct (Nat.eqb (size m) 0). }
    rewrite IH. by rewrite <- !app_assoc.
Qed.

(** A call of [collection.add] made by [IngestView.post] carries the
    identifiers, texts and prepared metadata of the documents. *)
Lemma ingest_post_calls {embedding} (svc : services embedding) docs call :
  call ∈ (ingest_post svc docs).2 →
  add_ids call = doc_id <$> docs ∧
  add_documents call = doc_text <$> docs ∧
  add_metadatas call = prepared_metadata <$> docs.
Proof.
  unfold ingest_post. rewrite ingest_loop. simpl.
  destruct (get_collection svc); simpl; [by intros ?%elem_of_nil|].
  destruct (doc_id <$> docs) eqn:Hids; simpl; [by intros ?%elem_of_nil|].
  destruct (embed_text_gemini svc _ _); simpl; [by intros ?%elem_of_nil|].
  destruct (collection_add svc _); simpl;
    intros ->%list_elem_of_singleton; done.
Qed.

(** C8: every call of [collection.add] that [IngestView.post] makes has
    one identifier, one text and one metadata mapping per document, in the
    order of the documents; the mapping is [{"source": "unknown"}] for a
    document whose metadata is absent or empty and the document's own
    mapping otherwise, and it is never empty. For a non-empty list of
    documents, a reachable store and a successful embedding there is such
    a call. *)
Theorem ingest_post_aligned {embedding} (svc : services embedding) docs :
  (∀ call, call ∈ (ingest_post svc docs).2 →
     length (add_ids call) = length docs ∧
     length (add_documents call) = length docs ∧
     length (add_metadatas call) = length docs ∧
     ∀ (i : nat) doc, docs !! i = Some doc →
       add_ids call !! i = Some (doc_id doc) ∧
       add_documents call !! i = Some (doc_text doc) ∧
       ∃ m, add_metadatas call !! i = Some m ∧ m ≠ ∅ ∧
         match doc_metadata doc with
         | None => m = {[ lit "source" := VStr (lit "unknown") ]}
         | Some metadata =>
             (metadata = ∅ → m = {[ lit "source" := VStr (lit "unknown") ]}) ∧
             (metadata ≠ ∅ → m = metadata)
         end) ∧
  (docs ≠ [] →
   get_collection svc = inr () →
   ∀ embeddings,
     embed_text_gemini svc (doc_text <$> docs) retrieval_document
     = inr embeddings →
     ∃ call, (ingest_post svc docs).2 = [call] ∧
       add_embeddings call = embeddings).
Proof.
  split.
  - intros call (Hids & Htexts & Hmetas)%ingest_post_calls.
    rewrite Hids, Htexts, Hmetas, !length_fmap. split_and!; try done.
    intros i doc Hi. rewrite !list_lookup_fmap, Hi. simpl. split_and!; try done.
    exists (prepared_metadata doc). split_and!; [done|..].
    + apply prepared_metadata_non_empty.
    + unfold prepared_metadata. destruct (doc_metadata doc) as [m|]; [|done].
      destruct (Nat.eqb_spec (size m) 0) as [Hsz|Hsz].
      * apply map_size_empty_iff in Hsz. by split.
      * apply map_size_non_empty_iff in Hsz. by split.
  - intros Hne Hstore embeddings Hembed.
    unfold ingest_post. rewrite ingest_loop, Hstore. simpl.
    destruct docs as [|doc docs]; [done|]. simpl in *. rewrite Hembed.
    eexists. by destruct (collection_add svc _).
Qed.

Lemma ingest_post_aligned_witness :
  ∃ call,
    (ingest_post example_services example_documents).2 = [call] ∧
    length (add_ids call) = 3%nat ∧
    add_embeddings call = [(); (); ()].
Proof.
  destruct (ingest_post_aligned example_services example_documents)
    as [Hall Hcall].
  destruct (Hcall ltac:(done) eq_refl _ eq_refl) as (call & Hcalls & Hemb).
  exists call. split; [done|].
  destruct (Hall call) as (Hlen & _); [|done].
  rewrite Hcalls. apply list_elem_of_here.
Defined.

(** With the configuration of the upload view a non-empty text gives at
    least one chunk. *)
Lemma chunker_upload_returns text fuel :
  text ≠ [] →
  (length text ≤ fuel)%nat →
  ∃ chunk chunks, simple_chunker fuel text 1500 150 = Some (chunk :: chunks).
Proof.
  intros Hne Hfuel.
  destruct (trace_valid text 1500 150 Hne ltac:(lia)) as (offs & Hvis & Hrun).
  destruct (visits_nonempty _ _ _ _ _ Hvis) as [offs' ->].
  unfold simple_chunker. rewrite Hrun by done. simpl. eauto.
Qed.

Lemma strip_non_empty text : strip text ≠ [] → text ≠ [].
Proof. by intros Hstrip ->. Qed.

Section Upload.

Context `{unicode_db} {embedding : Type}.

(** A call of [collection.add] made by [FileUploadIngestView.post] carries
    the chunks of the extracted text, their identifiers and their
    metadata. *)
Lemma upload_post_calls fuel (svc : services embedding) file status calls call :
  upload_post fuel svc file = Some (status, calls) →
  call ∈ calls →
  ∃ text chunks,
    (extract_text_from_file svc file).1 = Some text ∧
    strip text ≠ [] ∧
    simple_chunker fuel text 1500 150 = Some chunks ∧
    chunks ≠ [] ∧
    add_documents call = chunks ∧
    add_ids call
    = generate_chunk_ids (time_now svc) (file_name file) (len chunks) ∧
    add_metadatas call
    = (λ i, chunk_metadata (file_name file) i (len chunks))
        <$> range (len chunks).
Proof.
  unfold upload_post.
  destruct (extract_text_from_file svc file) as [extracted error_msg].
  destruct (str_truthy error_msg); [by intros [= _ <-] ?%elem_of_nil|].
  destruct extracted as [[|c text]|]; [by intros [= _ <-] ?%elem_of_nil| |
    by intros [= _ <-] ?%elem_of_nil].
  destruct (strip (c :: text)) as [|c' stripped] eqn:Hstrip;
    [by intros [= _ <-] ?%elem_of_nil|].
  destruct (simple_chunker fuel (c :: text) 1500 150) as [[|chunk chunks]|]
    eqn:Hchunks; [by intros [= _ <-] ?%elem_of_nil| |done].
  destruct (embed_text_gemini svc _ _); [by intros [= _ <-] ?%elem_of_nil|].
  destruct (get_collection svc); [by intros [= _ <-] ?%elem_of_nil|].
  destruct (collection_add svc _); intros [= _ <-] ->%list_elem_of_singleton;
    exists (c :: text), (chunk :: chunks); simpl; rewrite Hstrip;
    split_and!; done.
Qed.

(** C10: every call of [collection.add] that [FileUploadIngestView.post]
    makes passes the chunks of the extracted text, at least one, and as
    many identifiers and metadata mappings as chunks; the mapping at index
    [i] is [{"source": original_filename, "chunk_index": i,
    "total_chunks": number of chunks}], which is not empty. When the
    extraction gives a text that is not blank and no error, and the
    embedding service and the store answer, there is such a call. *)
Theorem upload_post_aligned fuel (svc : services embedding) file :
  (∀ status calls call,
     upload_post fuel svc file = Some (status, calls) →
     call ∈ calls →
     let n := length (add_documents call) in
     (0 < n)%nat ∧
     length (add_ids call) = n ∧
     length (add_metadatas call) = n ∧
     (∃ text, (extract_text_from_file svc file).1 = Some text ∧
        returns text 1500 150 (add_documents call)) ∧
     add_ids call
     = generate_chunk_ids (time_now svc) (file_name file) (Z.of_nat n) ∧
     ∀ i : nat, (i < n)%nat →
       ∃ m, add_metadatas call !! i = Some m ∧ m ≠ ∅ ∧
         m = {[ lit "source" := VStr (file_name file);
                lit "chunk_index" := VInt (Z.of_nat i);
                lit "total_chunks" := VInt (Z.of_nat n) ]}) ∧
  (∀ text error_msg,
     extract_text_from_file svc file = (Some text, error_msg) →
     str_truthy error_msg = false →
     strip text ≠ [] →
     (∀ chunks, ∃ embeddings,
        embed_text_gemini svc chunks retrieval_document = inr embeddings) →
     get_collection svc = inr () →
     (length text ≤ fuel)%nat →
     ∃ status call, upload_post fuel svc file = Some (status, [call])).
Proof.
  split.
  - intros status calls call Hpost Hcall.
    destruct (upload_post_calls _ _ _ _ _ _ Hpost Hcall)
      as (text & chunks & Htext & _ & Hchunks & Hne & Hdocs & Hids & Hmetas).
    simpl. rewrite Hdocs, Hids, Hmetas.
    rewrite generate_chunk_ids_length, length_fmap.
    unfold range. rewrite length_seqZ. unfold len. rewrite Nat2Z.id.
    split_and!; try done.
    + destruct chunks; [done|simpl; lia].
    + exists text. split; [done|]. by exists fuel.
    + intros i Hi. rewrite list_lookup_fmap, lookup_seqZ_lt by lia. simpl.
      eexists. split_and!; [done| |done].
      apply insert_non_empty.
  - intros text error_msg Hextract Herr Hstrip Hembed Hstore Hfuel.
    destruct (chunker_upload_returns text fuel) as (chunk & chunks & Hchunks);
      [by apply strip_non_empty|done|].
    destruct (Hembed (chunk :: chunks)) as [embeddings Hemb].
    unfold upload_post. rewrite Hextract, Herr.
    destruct text as [|c text]; [done|].
    destruct (strip (c :: text)); [done|].
    rewrite Hchunks, Hemb, Hstore.
    destruct (collection_add svc _); eauto.
Qed.

End Upload.

Lemma upload_post_aligned_witness :
  ∃ status call,
    @upload_post unit ascii_only 11 example_services example_file
    = Some (status, [call]) ∧
    length (add_ids call) = length (add_documents call) ∧
    length (add_metadatas call) = length (add_documents call).
Proof.
  destruct (@upload_post_aligned ascii_only unit 11 example_services example_file)
    as [Hall Hcall].
  destruct (Hcall (lit "hello world") None eq_refl eq_refl)
    as (status & call & Hpost).
  - vm_compute. discriminate.
  - intros chunks. by eexists.
  - done.
  - vm_compute. lia.
  - exists status, call. split; [done|].
    destruct (Hall status [call] call Hpost) as (_ & Hids & Hmetas & _);
      [apply list_elem_of_here|].
    by split.
Defined.

(** ** Further properties of [simple_chunker] *)

(** With [chunk_overlap < chunk_size] every pass moves [start] forward, so
    the loop returns once it is allowed one loop test more than there are
    characters left. *)
Lemma while_progress text chunk_size chunk_overlap fuel s acc :
  chunk_overlap < chunk_size →
  0 ≤ s →
  Z.max 0 (len text - s) < Z.of_nat fuel →
  is_Some (while fuel text chunk_size chunk_overlap (LoopState s acc)).
Proof.
  intros Hstep. revert s acc.
  induction fuel as [|fuel IH]; intros s acc Hs Hfuel; [lia|].
  simpl. unfold loop_body. simpl.
  destruct (Z.ltb_spec s (len text)); [|done].
  destruct (Z.leb_spec (len text) (s + chunk_size)); [done|].
  destruct (Z.ltb_spec (s + (chunk_size - chunk_overlap)) 0); [lia|].
  apply IH; lia.
Qed.

Lemma text_len_pos (text : str) : text ≠ [] → 0 < len text.
Proof. destruct text; [done|]. unfold len. simpl. lia. Qed.

(** X1: the call returns exactly when the text is empty, or fits in one chunk,
    or the overlap is smaller than the chunk size. *)
Theorem chunker_returns_iff text chunk_size chunk_overlap :
  (∃ cs, returns text chunk_size chunk_overlap cs) ↔
  text = [] ∨ len text ≤ chunk_size ∨ chunk_overlap < chunk_size.
Proof.
  split.
  - intros [cs [fuel Hrun]].
    destruct (decide (text = [])) as [|Hne]; [by left|].
    destruct (Z.le_gt_cases (len text) chunk_size); [by right; left|].
    destruct (Z.lt_ge_cases chunk_overlap chunk_size); [by right; right|].
    exfalso. unfold simple_chunker, simple_chunker_trace in Hrun.
    destruct text as [|c text]; [done|].
    rewrite while_stuck in Hrun by (done || lia). done.
  - intros Hcases.
    destruct (decide (text = [])) as [->|Hne]; [by exists [], 0%nat|].
    assert (Hpos := text_len_pos text Hne).
    assert (Hsome : ∃ fuel,
              is_Some (while fuel text chunk_size chunk_overlap (LoopState 0 []))).
    { destruct Hcases as [?|[Hfit|Hstep]]; [done| |].
      - exists 1%nat. rewrite while_S, loop_body_exit by lia. done.
      - exists (S (length text)). apply while_progress; [done|lia|].
        unfold len. lia. }
    destruct Hsome as (fuel & es & Hes).
    exists (content <$> es), fuel. unfold simple_chunker, simple_chunker_trace.
    destruct text; [done|]. by rewrite Hes.
Qed.

Lemma chunker_returns_iff_witness :
  ∃ cs, returns (lit "abcdefghij") 4 (-2) cs.
Proof.
  apply (chunker_returns_iff (lit "abcdefghij") 4 (-2)).
  right. right. lia.
Defined.

(** X2: a non-empty text that fits in one chunk is returned whole, as the only
    chunk, after one pass, whatever the overlap. *)
Theorem chunker_single_chunk text chunk_size chunk_overlap :
  text ≠ [] →
  len text ≤ chunk_size →
  ∀ fuel, simple_chunker (S fuel) text chunk_size chunk_overlap = Some [text].
Proof.
  intros Hne Hfit fuel. assert (Hpos := text_len_pos text Hne).
  unfold simple_chunker, simple_chunker_trace.
  destruct text as [|c text'] eqn:Htext; [done|]. rewrite <- Htext in *.
  rewrite while_S, loop_body_exit by lia. simpl.
  rewrite slice_to_end by lia. done.
Qed.

Lemma chunker_single_chunk_witness :
  simple_chunker 1 (lit "abc") 3 7 = Some [lit "abc"].
Proof.
  apply (chunker_single_chunk (lit "abc") 3 7); [done|]. vm_compute. discriminate.
Defined.

(** The number of offsets visited from [s]. *)
Lemma visits_count text chunk_size chunk_overlap s offs :
  0 ≤ chunk_overlap < chunk_size →
  visits text chunk_size chunk_overlap s offs →
  len offs = expected_chunks (len text - s) chunk_size chunk_overlap.
Proof.
  intros Hov Hvis. unfold expected_chunks.
  induction Hvis as [s Hend|s offs Hmore Hvis IH].
  - destruct (Z.leb_spec (len text - s) chunk_size); [done|lia].
  - destruct (Z.leb_spec (len text - s) chunk_size); [lia|].
    assert (len (s :: offs) = len offs + 1) as ->
      by (unfold len; rewrite length_cons; lia).
    rewrite IH.
    set (step := chunk_size - chunk_overlap) in *.
    assert (0 < step) by (unfold step; lia).
    destruct (Z.leb_spec (len text - (s + step)) chunk_size).
    + f_equal.
      apply (Z.div_unique_pos _ _ 1 (len text - s - chunk_size - 1)); lia.
    + replace (len text - s - chunk_size + step - 1)
        with (len text - (s + step) - chunk_size + step - 1 + 1 * step) by lia.
      rewrite Z.div_add by lia. lia.
Qed.

(** X3: for a non-empty text and [0 ≤ chunk_overlap < chunk_size] the call
    returns [expected_chunks] chunks. *)
Theorem chunker_count text chunk_size chunk_overlap :
  text ≠ [] →
  0 ≤ chunk_overlap < chunk_size →
  ∃ cs, returns text chunk_size chunk_overlap cs ∧
    len cs = expected_chunks (len text) chunk_size chunk_overlap.
Proof.
  intros Hne Hov.
  destruct (trace_valid text chunk_size chunk_overlap Hne Hov)
    as (offs & Hvis & Hrun).
  exists (content <$> (cut text chunk_size <$> offs)). split.
  - apply returns_trace. eexists. split; [|done].
    exists (length text). by apply Hrun.
  - unfold len at 1. rewrite !length_fmap.
    rewrite <- (Z.sub_0_r (len text)).
    by apply (visits_count text chunk_size chunk_overlap 0 offs).
Qed.

Lemma chunker_count_witness :
  ∃ cs, returns (lit "abcdefghij") 4 1 cs ∧ len cs = 3.
Proof.
  apply (chunker_count (lit "abcdefghij") 4 1); [done|lia].
Defined.

(** What a call returns in a valid configuration, chunk by chunk. *)
Lemma returns_valid text chunk_size chunk_overlap cs :
  text ≠ [] →
  0 ≤ chunk_overlap < chunk_size →
  returns text chunk_size chunk_overlap cs →
  ∃ offs,
    visits text chunk_size chunk_overlap 0 offs ∧
    cs = content <$> (cut text chunk_size <$> offs).
Proof.
  intros Hne Hov (es & Hes & ->)%returns_trace.
  destruct (trace_returns_valid _ _ _ _ Hne Hov Hes) as (offs & Hvis & ->).
  by exists offs.
Qed.

(** X4: consecutive chunks share [chunk_overlap] characters: the first
    [chunk_overlap] characters of a chunk are the characters of the chunk
    before it from index [chunk_size - chunk_overlap] on. *)
Theorem chunker_overlap_shared text chunk_size chunk_overlap cs (i : nat) c c' :
  text ≠ [] →
  0 ≤ chunk_overlap < chunk_size →
  returns text chunk_size chunk_overlap cs →
  cs !! i = Some c →
  cs !! S i = Some c' →
  take (Z.to_nat chunk_overlap) c'
  = drop (Z.to_nat (chunk_size - chunk_overlap)) c ∧
  len (take (Z.to_nat chunk_overlap) c') = chunk_overlap.
Proof.
  intros Hne Hov Hret Hc Hc'.
  assert (Hpos := text_len_pos text Hne).
  destruct (returns_valid _ _ _ _ Hne Hov Hret) as (offs & Hvis & ->).
  rewrite !list_lookup_fmap in Hc, Hc'.
  destruct (offs !! i) as [o|] eqn:Ho; [|done].
  destruct (offs !! S i) as [o'|] eqn:Ho'; [|done].
  simplify_eq/=.
  destruct (visits_lookup text chunk_size chunk_overlap Hov 0 offs i o)
    as [Heq Hbound]; [done|lia|done|].
  destruct (visits_lookup text chunk_size chunk_overlap Hov 0 offs (S i) o')
    as [Heq' Hbound']; [done|lia|done|].
  assert (Hw := visits_window text chunk_size chunk_overlap 0 offs i o Hvis Ho).
  apply lookup_lt_Some in Ho'.
  rewrite decide_False in Hw by lia.
  assert (Hnext : o' = o + (chunk_size - chunk_overlap)) by lia.
  rewrite !slice_inside' by lia.
  set (step := chunk_size - chunk_overlap) in *.
  rewrite take_take, Nat.min_l by lia.
  replace (Z.to_nat chunk_size) with (Z.to_nat step + Z.to_nat chunk_overlap)%nat
    by lia.
  rewrite <- take_drop_commute, drop_drop.
  replace (Z.to_nat o + Z.to_nat step)%nat with (Z.to_nat o') by lia.
  split; [done|].
  unfold len in *. rewrite length_take, length_drop. lia.
Qed.

Lemma chunker_overlap_shared_witness :
  take 1 (lit "defg") = drop 3 (lit "abcd").
Proof.
  apply (chunker_overlap_shared (lit "abcdefghij") 4 1
           [lit "abcd"; lit "defg"; lit "ghij"] 0 (lit "abcd") (lit "defg"));
    [done|lia|by exists 3%nat|done|done].
Defined.

(** ** Further properties of the ingesting views *)

Lemma ingest_handler_not_created e : ingest_handler e ≠ HTTP_201_CREATED.
Proof. by destruct e. Qed.


Lemma ingest_post_example :
  ∃ call,
    ingest_post example_services example_documents
    = (HTTP_201_CREATED, [call]).
Proof. eexists. reflexivity. Qed.


(** ** Whitespace *)

Lemma lstrip_decompose s :
  ∃ blank, s = blank ++ lstrip s ∧ Forall (λ c, isspace c = true) blank.
Proof.
  induction s as [|c s (blank & Hs & Hblank)]; simpl.
  - by exists [].
  - destruct (isspace c) eqn:Hc.
    + exists (c :: blank). split; [by rewrite <- app_comm_cons, <- Hs|].
      by constructor.
    + by exists [].
Qed.

Lemma lstrip_head c s r : lstrip s = c :: r → isspace c = false.
Proof.
  induction s as [|x s IH]; simpl; [done|].
  destruct (isspace x) eqn:Hx; [done|]. by intros [= -> _].
Qed.

Lemma lstrip_blank s : Forall (λ c, isspace c = true) s ↔ lstrip s = [].
Proof.
  split.
  - induction 1 as [|c s Hc _ IH]; simpl; [done|]. by rewrite Hc.
  - intros Hnil. destruct (lstrip_decompose s) as (blank & Hs & Hblank).
    rewrite Hnil, app_nil_r in Hs. by subst.
Qed.

(** [s.strip()] is empty exactly when [s] has whitespace only. *)
Lemma strip_blank s : Forall (λ c, isspace c = true) s ↔ strip s = [].
Proof.
  unfold strip. split.
  - intros Hs. apply lstrip_blank in Hs. by rewrite Hs.
  - intros Hnil.
    assert (lstrip (reverse (lstrip s)) = []) as Hrev%lstrip_blank.
    { apply (f_equal reverse) in Hnil. by rewrite reverse_involutive in Hnil. }
    rewrite Forall_reverse in Hrev.
    destruct (lstrip s) as [|c r] eqn:Hl; [by apply lstrip_blank|].
    apply lstrip_head in Hl. apply Forall_cons in Hrev as [? _]. congruence.
Qed.

(** ** Further properties of [FileUploadIngestView.post] *)

Section UploadMore.

Context `{unicode_db} {embedding : Type}.

(** X9: the upload view answers: chunking the extracted text terminates. *)
Theorem upload_post_answers fuel (svc : services embedding) file :
  (length (default [] (extract_text_from_file svc file).1) ≤ fuel)%nat →
  is_Some (upload_post fuel svc file).
Proof.
  unfold upload_post.
  destruct (extract_text_from_file svc file) as [extracted error_msg]. simpl.
  intros Hfuel.
  destruct (str_truthy error_msg); [done|].
  destruct extracted as [[|c text]|]; [done| |done].
  destruct (strip (c :: text)); [done|].
  destruct (chunker_upload_returns (c :: text) fuel) as (chunk & chunks & ->);
    [done|done|].
  destruct (embed_text_gemini svc _ _); [done|].
  destruct (get_collection svc); [done|].
  by destruct (collection_add svc _).
Qed.

(** X10: the upload view calls [collection.add] at most once, and answers 201 exactly
    when it made the call and the call did not raise. *)
Theorem upload_post_status fuel (svc : services embedding) file status calls :
  upload_post fuel svc file = Some (status, calls) →
  (length calls ≤ 1)%nat ∧
  (status = HTTP_201_CREATED ↔
   ∃ call, calls = [call] ∧ collection_add svc call = inr ()).
Proof.
  unfold upload_post.
  destruct (extract_text_from_file svc file) as [extracted error_msg].
  assert (Hnone : ∀ st, st ≠ HTTP_201_CREATED →
            Some (st, []) = Some (status, calls) →
            (length calls ≤ 1)%nat ∧
            (status = HTTP_201_CREATED ↔
             ∃ call, calls = [call] ∧ collection_add svc call = inr ())).
  { intros st Hst [= <- <-]. split; [simpl; lia|].
    split; [done|by intros (? & ? & _)]. }
  destruct (str_truthy error_msg); [by apply Hnone|].
  destruct extracted as [[|c text]|]; [by apply Hnone| |by apply Hnone].
  destruct (strip (c :: text)); [by apply Hnone|].
  destruct (simple_chunker fuel (c :: text) 1500 150) as [[|chunk chunks]|];
    [by apply Hnone| |done].
  destruct (embed_text_gemini svc _ _);
    [apply Hnone, ingest_handler_not_created|].
  destruct (get_collection svc); [apply Hnone, ingest_handler_not_created|].
  destruct (collection_add svc _) as [e|[]] eqn:Hadd; intros [= <- <-];
    (split; [simpl; lia|]).
  - split; [by intros ?%ingest_handler_not_created|].
    intros (call & [= <-] & Hok). congruence.
  - split; [|done]. intros _. eauto.
Qed.

(** X11: a text of whitespace only is answered with 200 and nothing is passed to
    the store. *)
Theorem upload_post_blank fuel (svc : services embedding) file text error_msg :
  extract_text_from_file svc file = (Some text, error_msg) →
  str_truthy error_msg = false →
  Forall (λ c, isspace c = true) text →
  upload_post fuel svc file = Some (HTTP_200_OK, []).
Proof.
  intros Hextract Herr Hblank%strip_blank.
  unfold upload_post. rewrite Hextract, Herr.
  destruct text; [done|]. by rewrite Hblank.
Qed.

(** X12: what the view passes to the store is the extracted text: the chunks
    put together again, without the 150 characters each shares with the
    chunk before it, are the text; and there are as many of them as the
    length of the text asks for. *)
Theorem upload_post_round_trip fuel (svc : services embedding) file
    status calls call :
  upload_post fuel svc file = Some (status, calls) →
  call ∈ calls →
  ∃ text,
    (extract_text_from_file svc file).1 = Some text ∧
    reassemble 150 (add_documents call) = text ∧
    len (add_documents call) = expected_chunks (len text) 1500 150.
Proof.
  intros Hpost Hcall.
  destruct (upload_post_calls _ _ _ _ _ _ Hpost Hcall)
    as (text & chunks & Htext & Hstrip & Hchunks & _ & -> & _).
  exists text. split; [done|].
  assert (Hne : text ≠ []) by by apply strip_non_empty.
  assert (Hpos := text_len_pos text Hne).
  destruct (returns_valid text 1500 150 chunks Hne ltac:(lia))
    as (offs & Hvis & ->); [by exists fuel|].
  split.
  - rewrite (visits_reassemble text 1500 150 ltac:(lia) 0 offs Hvis) by lia.
    done.
  - unfold len at 1. rewrite !length_fmap.
    rewrite <- (Z.sub_0_r (len text)).
    apply (visits_count text 1500 150 0 offs); [lia|done].
Qed.

End UploadMore.

Lemma upload_post_example :
  ∃ call,
    @upload_post unit ascii_only 11 example_services example_file
    = Some (HTTP_201_CREATED, [call]).
Proof. eexists. vm_compute. reflexivity. Qed.

Lemma upload_post_answers_witness :
  is_Some (@upload_post unit ascii_only 11 example_services example_file).
Proof.
  apply (@upload_post_answers ascii_only unit 11 example_services example_file).
  vm_compute. lia.
Defined.

Lemma upload_post_status_witness :
  ∃ call,
    @upload_post unit ascii_only 11 example_services example_file
    = Some (HTTP_201_CREATED, [call]) ∧
    collection_add example_services call = inr ().
Proof.
  destruct upload_post_example as [call Hpost]. exists call. split; [done|].
  destruct (@upload_post_status ascii_only unit 11 example_services
              example_file HTTP_201_CREATED [call] Hpost) as (_ & Hcreated).
  destruct (proj1 Hcreated eq_refl) as (call' & [= <-] & Hok). exact Hok.
Defined.

Lemma upload_post_blank_witness :
  @upload_post unit ascii_only 0
    (Services 0 (λ _, (Some (lit "  "), None)) (λ _ _, inr [])
       (inr ()) (λ _, inr ()))
    example_file
  = Some (HTTP_200_OK, []).
Proof.
  apply (@upload_post_blank ascii_only unit 0 _ example_file (lit "  ") None);
    [done|done|].
  by repeat constructor.
Defined.

Lemma upload_post_round_trip_witness :
  ∃ call,
    @upload_post unit ascii_only 11 example_services example_file
    = Some (HTTP_201_CREATED, [call]) ∧
    reassemble 150 (add_documents call) = lit "hello world".
Proof.
  destruct upload_post_example as [call Hpost]. exists call. split; [done|].
  destruct (@upload_post_round_trip ascii_only unit 11 example_services
              example_file HTTP_201_CREATED [call] call Hpost)
    as (text & [= <-] & Hround & _); [apply list_elem_of_here|].
  exact Hround.
Defined.

(** ** Further properties of [generate_chunk_ids] *)

(** Two strings cut at their last separator are equal only piece by
    piece. *)
Lemma last_sep_inj (sep : N) r r' a a' :
  sep ∉ a → sep ∉ a' →
  r ++ sep :: a = r' ++ sep :: a' →
  r = r' ∧ a = a'.
Proof.
  intros Ha Ha'. revert r'.
  induction r as [|x r IH]; intros [|x' r'] Heq; simpl in Heq.
  - by simplify_eq.
  - simplify_eq. exfalso. apply Ha.
    apply elem_of_app. right. apply list_elem_of_here.
  - simplify_eq. exfalso. apply Ha'.
    apply elem_of_app. right. apply list_elem_of_here.
  - injection Heq as -> Heq. by destruct (IH _ Heq) as [-> ->].
Qed.

Lemma str_of_int_no_underscore z : underscore ∉ str_of_int z.
Proof.
  intros Hin.
  assert (Hchars := str_of_int_chars z).
  rewrite Forall_forall in Hchars.
  destruct (Hchars _ Hin) as [?|?]; [done|]. unfold underscore in *. lia.
Qed.

(** An identifier determines its base name, its timestamp and its
    index. *)
Lemma chunk_id_pieces base t i :
  chunk_id base t i
  = ((base ++ underscore :: str_of_int t) ++ lit "_chunk")
      ++ underscore :: str_of_int i.
Proof.
  unfold chunk_id.
  change (lit "_chunk_") with (lit "_chunk" ++ [underscore]).
  change (lit "_") with [underscore].
  by rewrite <- !app_assoc.
Qed.

Lemma chunk_id_inj_all base base' t t' i i' :
  chunk_id base t i = chunk_id base' t' i' →
  base = base' ∧ t = t' ∧ i = i'.
Proof.
  rewrite !chunk_id_pieces. intros Heq.
  apply last_sep_inj in Heq as [Heq ->%str_of_int_inj];
    try apply str_of_int_no_underscore.
  apply app_inv_tail in Heq.
  apply last_sep_inj in Heq as [-> ->%str_of_int_inj];
    try apply str_of_int_no_underscore.
  done.
Qed.

Lemma string_of_uint_digits d :
  Forall (λ c, (48 ≤ c ≤ 57)%N) (lit (NilEmpty.string_of_uint d)).
Proof.
  induction d; cbn [NilEmpty.string_of_uint]; try rewrite lit_cons;
    constructor; (done || (vm_compute; split; discriminate)).
Qed.

Lemma str_of_int_digits z :
  0 ≤ z → Forall (λ c, (48 ≤ c ≤ 57)%N) (str_of_int z).
Proof.
  intros Hz. unfold str_of_int.
  destruct z as [|p|p]; [|  |lia]; simpl.
  - repeat constructor; vm_compute; discriminate.
  - unfold NilZero.string_of_uint.
    destruct (Pos.to_uint p) eqn:Hp;
      try (rewrite <- Hp; apply string_of_uint_digits).
    by apply DecimalPos.Unsigned.to_uint_nonnil in Hp.
Qed.

(** ** Paths *)

Lemma split_non_empty sep s : split sep s ≠ [].
Proof.
  destruct s as [|c s]; simpl; [done|].
  destruct (c =? sep)%N; [done|]. by destruct (split sep s).
Qed.

Lemma split_app sep a b :
  split sep (a ++ sep :: b) = split sep a ++ split sep b.
Proof.
  induction a as [|c a IH]; simpl.
  - by rewrite N.eqb_refl.
  - destruct (c =? sep)%N; [by rewrite IH|].
    rewrite IH. destruct (split sep a) eqn:Ha; [|done].
    by apply split_non_empty in Ha.
Qed.

Lemma split_no_sep sep s : sep ∉ s → split sep s = [s].
Proof.
  induction s as [|c s IH]; intros Hs; simpl; [done|].
  destruct (N.eqb_spec c sep) as [->|]; [set_solver|].
  rewrite IH; [done|set_solver].
Qed.

(** The name of a path is its part after the last slash, when that part is
    a proper component. *)
Lemma path_name_dir dir name :
  slash ∉ name → name ≠ [] → name ≠ [dot] →
  path_name (dir ++ slash :: name) = name.
Proof.
  intros Hslash Hne Hdot. unfold path_name.
  rewrite split_app, (split_no_sep _ name) by done.
  rewrite filter_app, filter_cons_True, filter_nil by done.
  by rewrite last_snoc.
Qed.

Lemma path_name_plain name :
  slash ∉ name → name ≠ [] → name ≠ [dot] → path_name name = name.
Proof.
  intros Hslash Hne Hdot. unfold path_name.
  rewrite split_no_sep by done.
  by rewrite filter_cons_True, filter_nil by done.
Qed.

Section IdsMore.

Context `{unicode_db}.

(** X5: an identifier made by one call is made by another call only if
    both read the same timestamp and derived the same base name, and then
    at the same index. *)
Theorem generate_chunk_ids_collision now now' filename filename' n n'
    (i j : nat) id :
  generate_chunk_ids now filename n !! i = Some id →
  generate_chunk_ids now' filename' n' !! j = Some id →
  now = now' ∧ base_name_safe filename = base_name_safe filename' ∧ i = j.
Proof.
  rewrite !generate_chunk_ids_lookup.
  destruct (decide (Z.of_nat i < n)); [|done].
  destruct (decide (Z.of_nat j < n')); [|done].
  intros [= <-] [= Heq].
  apply chunk_id_inj_all in Heq as (-> & -> & Hij). split_and!; [done|done|lia].
Qed.

(** X6: when the clock is not before the epoch, an identifier is made of
    alphanumeric characters and underscores only. *)
Theorem generate_chunk_ids_alphabet now filename n id :
  0 ≤ now →
  id ∈ generate_chunk_ids now filename n →
  Forall (λ c, isalnum c = true ∨ c = underscore) id.
Proof.
  intros Hnow. rewrite generate_chunk_ids_eq.
  intros (i & -> & Hi%elem_of_seqZ)%list_elem_of_fmap.
  assert (Hdigits : ∀ z, 0 ≤ z →
            Forall (λ c, isalnum c = true ∨ c = underscore) (str_of_int z)).
  { intros z Hz. eapply Forall_impl; [by apply str_of_int_digits|].
    intros c [Hlo Hhi]. left. unfold isalnum, in_range.
    destruct (N.ltb_spec c 128); [|lia].
    destruct (N.leb_spec 48 c); [|lia]. destruct (N.leb_spec c 57); [|lia].
    done. }
  assert (Hlit : ∀ s,
            forallb (λ c, in_range 97 122 c || (c =? underscore)%N) (lit s)
            = true →
            Forall (λ c, isalnum c = true ∨ c = underscore) (lit s)).
  { intros s Hs. apply Forall_forall. intros c Hc.
    rewrite forallb_forall in Hs. apply list_elem_of_In, Hs in Hc.
    apply orb_true_iff in Hc as [Hc| ->%N.eqb_eq]; [left|by right].
    unfold isalnum, in_range in *.
    apply andb_true_iff in Hc as [Hlo%N.leb_le Hhi%N.leb_le].
    destruct (N.ltb_spec c 128); [|lia].
    destruct (N.leb_spec 97 c); [|lia]. destruct (N.leb_spec c 122); [|lia].
    by rewrite orb_true_r. }
  unfold chunk_id. rewrite !Forall_app. split_and!.
  - rewrite base_name_safe_eq. apply Forall_take. rewrite Forall_fmap.
    apply Forall_forall. intros c _. simpl.
    destruct (isalnum c) eqn:Hc; auto.
  - by apply Hlit.
  - by apply Hdigits.
  - by apply Hlit.
  - apply Hdigits. lia.
Qed.

(** X7: the directories of a path do not count: a file name after a slash
    gives the identifiers it gives on its own. *)
Theorem generate_chunk_ids_directory now dir name n :
  slash ∉ name → name ≠ [] → name ≠ [dot] →
  generate_chunk_ids now (dir ++ slash :: name) n
  = generate_chunk_ids now name n.
Proof.
  intros Hslash Hne Hdot.
  rewrite !generate_chunk_ids_eq. unfold base_name_safe, stem.
  by rewrite path_name_dir, path_name_plain.
Qed.

End IdsMore.

Lemma generate_chunk_ids_collision_witness :
  @base_name_safe ascii_only (lit "a b.txt")
  = @base_name_safe ascii_only (lit "a_b.pdf").
Proof.
  apply (@generate_chunk_ids_collision ascii_only 5 5 (lit "a b.txt")
           (lit "a_b.pdf") 2 3 1 1 (lit "a_b_5_chunk_1"));
    vm_compute; reflexivity.
Defined.

Lemma generate_chunk_ids_alphabet_witness :
  Forall (λ c, @isalnum ascii_only c = true ∨ c = underscore)
    (lit "My_Report_1700000000_chunk_0").
Proof.
  apply (@generate_chunk_ids_alphabet ascii_only 1700000000
           (lit "My Report.pdf") 1); [lia|].
  vm_compute. apply list_elem_of_here.
Defined.

Lemma generate_chunk_ids_directory_witness :
  @generate_chunk_ids ascii_only 5 (lit "docs/a.txt") 2
  = @generate_chunk_ids ascii_only 5 (lit "a.txt") 2.
Proof.
  apply (@generate_chunk_ids_directory ascii_only 5 (lit "docs") (lit "a.txt") 2);
    [|done|done].
  eapply bool_decide_unpack. vm_compute. exact I.
Defined.

(** ** Properties of [rag_api/utils.py] *)

Section ClientsProperties.

Context {client model embedding E : Type}.

(** X13: once a call of [get_chroma_client] has returned a client, the
    module variable holds it, and every later call returns that client
    and leaves the variable alone, whatever the server would answer. *)
Theorem get_chroma_client_singleton (HttpClient : E + client) heartbeat
    st c st' :
  utils.get_chroma_client HttpClient heartbeat st = (inr c, st') →
  st' = Some c ∧
  ∀ (HttpClient' : E + client) heartbeat',
    utils.get_chroma_client HttpClient' heartbeat' st' = (inr c, st').
Proof.
  unfold utils.get_chroma_client.
  destruct st as [c0|].
  - intros [= <- <-]. done.
  - destruct HttpClient as [e|c0]; [done|].
    destruct (heartbeat c0); [done|]. intros [= <- <-]. done.
Qed.

(** X14: [get_chroma_client] raises nothing but [ConnectionError], and only
    while the module variable is empty. When the client could not be made
    the variable stays empty; when the client was made and its heartbeat
    failed, the client stays in the variable, and every later call returns
    it without a heartbeat. *)
Theorem get_chroma_client_failure (HttpClient : E + client) heartbeat
    st x st' :
  utils.get_chroma_client HttpClient heartbeat st = (inl x, st') →
  st = None ∧
  ∃ e, x = utils.ConnectionError e ∧
    ((HttpClient = inl e ∧ st' = None) ∨
     (∃ c, HttpClient = inr c ∧ heartbeat c = inl e ∧ st' = Some c ∧
        ∀ (HttpClient' : E + client) heartbeat',
          utils.get_chroma_client HttpClient' heartbeat' st'
          = (inr c, st'))).
Proof.
  unfold utils.get_chroma_client.
  destruct st as [c0|]; [done|].
  destruct HttpClient as [e|c0].
  - intros [= <- <-]. split; [done|]. exists e. split; [done|]. by left.
  - destruct (heartbeat c0) as [e|] eqn:Hbeat; [|done].
    intros [= <- <-]. split; [done|]. exists e. split; [done|].
    right. exists c0. done.
Qed.

End ClientsProperties.

Lemma get_chroma_client_singleton_witness :
  @utils.get_chroma_client nat unit (inl ()) (λ _, inl ()) (Some 7%nat)
  = (inr 7%nat, Some 7%nat).
Proof.
  apply (@get_chroma_client_singleton nat unit (inr 7%nat) (λ _, inr ()) None
           7%nat (Some 7%nat)).
  reflexivity.
Defined.

Lemma get_chroma_client_failure_witness :
  @None nat = None ∧
  ∃ e, utils.ConnectionError () = utils.ConnectionError e.
Proof.
  destruct (@get_chroma_client_failure nat unit (inr 7%nat) (λ _, inl ()) None
              (utils.ConnectionError ()) (Some 7%nat) eq_refl)
    as (Hnone & e & Hx & _).
  split; [exact Hnone|]. exists e. exact Hx.
Defined.

Section GeminiProperties.

Context {model embedding E : Type}.

Implicit Types (lib : utils.genai model embedding E).
Implicit Types (cfg : utils.settings) (g : utils.gemini_globals model).

Lemma initialize_gemini_cases lib cfg g :
  utils.initialize_gemini lib cfg g = g ∨
  ∃ m,
    utils.gemini_initialized g = false ∧
    str_truthy (utils.GOOGLE_API_KEY cfg) = true ∧
    utils.configure lib = inr () ∧
    utils.GenerativeModel lib (utils.GEMINI_MODEL_NAME cfg) = inr m ∧
    utils.initialize_gemini lib cfg g
    = utils.GeminiGlobals true (Some m) (utils.GEMINI_EMBEDDING_MODEL cfg).
Proof.
  unfold utils.initialize_gemini.
  destruct (utils.gemini_initialized g); simpl; [by left|].
  destruct (str_truthy _); [|by left].
  destruct (utils.configure lib) as [e|[]]; [by left|].
  destruct (utils.GenerativeModel lib _) as [e|m] eqn:Hm; [by left|].
  right. by exists m.
Qed.

Lemma initialize_gemini_consistent lib cfg g :
  utils.gemini_consistent g →
  utils.gemini_consistent (utils.initialize_gemini lib cfg g).
Proof.
  intros Hg.
  destruct (initialize_gemini_cases lib cfg g) as [->|(m & _ & _ & _ & _ & ->)];
    [done|].
  unfold utils.gemini_consistent. simpl. eauto.
Qed.

Lemma attempt_consistent lib cfg g :
  utils.gemini_consistent g →
  utils.gemini_consistent
    (if negb (utils.gemini_initialized g)
     then utils.initialize_gemini lib cfg g else g).
Proof.
  intros Hg. destruct (negb _); [by apply initialize_gemini_consistent|done].
Qed.





End GeminiProperties.





(** ** Stripped strings *)

Lemma lstrip_fixed s :
  (∀ c r, s = c :: r → isspace c = false) → lstrip s = s.
Proof.
  destruct s as [|c r]; [done|]. intros Hhead. simpl.
  by rewrite (Hhead c r).
Qed.

Lemma lstrip_lstrip s : lstrip (lstrip s) = lstrip s.
Proof.
  apply lstrip_fixed. intros c r Hs. by apply lstrip_head in Hs.
Qed.

(** Stripping a stripped string changes nothing. *)
Lemma strip_strip s : strip (strip s) = strip s.
Proof.
  unfold strip.
  set (a := lstrip s). set (b := lstrip (reverse a)).
  assert (Hfront : lstrip (reverse b) = reverse b).
  { apply lstrip_fixed. intros x r Hb.
    destruct (lstrip_decompose (reverse a)) as (blank & Ha & _).
    fold b in Ha. apply (f_equal reverse) in Ha.
    rewrite reverse_involutive, reverse_app, Hb in Ha.
    apply (lstrip_head x s (r ++ reverse blank)). exact Ha. }
  rewrite Hfront, reverse_involutive. unfold b. by rewrite lstrip_lstrip.
Qed.

(** ** Properties of the text extraction *)

Section ExtractionProperties.

Context {image E : Type} (lower : str → str).

Implicit Types (libs : extraction.libraries image E).

Lemma direct_extraction_text libs file_content returned text :
  extraction.direct_extraction libs file_content = (returned, text) →
  strip text = text ∧ (returned = false → text = []).
Proof.
  unfold extraction.direct_extraction.
  destruct (extraction.pypdf libs) as [read|]; [|by intros [= <- <-]].
  destruct (read file_content) as [e|pages]; [by intros [= <- <-]|].
  destruct (strip _) eqn:Hs; intros [= <- <-]; [done|].
  by rewrite <- Hs, strip_strip.
Qed.

Lemma extract_pdf_stripped libs file_content lang text :
  extraction.extract_text_from_pdf_with_ocr libs file_content lang = inr text →
  strip text = text.
Proof.
  unfold extraction.extract_text_from_pdf_with_ocr.
  destruct (extraction.direct_extraction libs file_content) as [returned t]
    eqn:Hd.
  apply direct_extraction_text in Hd as [Hd _].
  destruct returned; [by intros [= <-]|].
  destruct (extraction.pytesseract libs) as [its|]; [|done].
  destruct (extraction.convert_from_bytes libs) as [convert|]; [|done].
  destruct (extraction.Image libs); [|done].
  destruct (convert file_content) as [e|images]; [by intros [= <-]|].
  destruct (extraction.ocr_pages _ _ _ _); intros [= <-];
    [done|apply strip_strip].
Qed.

(** X19: [extract_text_from_file] gives either a text and no error, and
    the text is stripped, or no text and an error message that is not
    empty. *)
Theorem extract_text_from_file_result libs file :
  match extraction.extract_text_from_file lower libs file with
  | (Some text, None) => strip text = text
  | (None, Some message) => str_truthy (Some message) = true
  | _ => False
  end.
Proof.
  unfold extraction.extract_text_from_file.
  repeat case_decide.
  - destruct (extraction.extract_text_from_pdf_with_ocr _ _ _) as [[msg]|text]
      eqn:Hpdf; [done|]. by apply extract_pdf_stripped in Hpdf.
  - unfold extraction.extract_text_from_docx.
    destruct (extraction.docx libs); [apply strip_strip|done].
  - unfold extraction.extract_text_from_xlsx.
    destruct (extraction.openpyxl libs); [apply strip_strip|done].
  - unfold extraction.extract_text_from_txt.
    destruct (extraction.utf8_decode libs _); apply strip_strip.
  - done.
Qed.

(** X20: for a file of a supported type an error is reported only when a
    library is missing: the OCR libraries for a PDF without text of its
    own, [docx] for a DOCX, [openpyxl] for an XLSX, and never for a TXT. A
    content that the libraries cannot read gives a text, which may be
    empty, and no error. *)
Theorem extract_text_from_file_error libs file message :
  extraction.extract_text_from_file lower libs file = (None, Some message) →
  let file_extension := lower (extraction.suffix (file_name file)) in
  (file_extension = lit ".pdf" ∧
   (extraction.pytesseract libs = None ∨
    extraction.convert_from_bytes libs = None ∨
    extraction.Image libs = false)) ∨
  (file_extension = lit ".docx" ∧ extraction.docx libs = None) ∨
  (file_extension = lit ".xlsx" ∧ extraction.openpyxl libs = None) ∨
  (file_extension ∉ [lit ".pdf"; lit ".docx"; lit ".xlsx"; lit ".txt"]).
Proof.
  unfold extraction.extract_text_from_file. simpl.
  repeat case_decide.
  - intros Hres. left. split; [done|].
    unfold extraction.extract_text_from_pdf_with_ocr in Hres.
    destruct (extraction.direct_extraction libs _) as [[] t]; [done|].
    destruct (extraction.pytesseract libs); [|by left].
    destruct (extraction.convert_from_bytes libs) as [convert|];
      [|by right; left].
    destruct (extraction.Image libs); [|by right; right].
    destruct (convert _); [done|]. by destruct (extraction.ocr_pages _ _ _ _).
  - intros Hres. right. left. split; [done|].
    unfold extraction.extract_text_from_docx in Hres.
    by destruct (extraction.docx libs).
  - intros Hres. right. right. left. split; [done|].
    unfold extraction.extract_text_from_xlsx in Hres.
    by destruct (extraction.openpyxl libs).
  - done.
  - intros _. do 3 right.
    rewrite !not_elem_of_cons. split_and!; try done. apply not_elem_of_nil.
Qed.

(** X21: when the OCR of a PDF raises, while the image conversion or on a
    page, the function returns the empty text: the OCR is only run when
    the direct extraction has left no text to return. *)
Theorem extract_pdf_ocr_failure libs file_content lang image_to_string convert
    text :
  extraction.direct_extraction libs file_content = (false, text) →
  extraction.pytesseract libs = Some image_to_string →
  extraction.convert_from_bytes libs = Some convert →
  extraction.Image libs = true →
  match convert file_content with
  | inl _ => True
  | inr images =>
      ∃ e, extraction.ocr_pages image_to_string lang images [] = inl e
  end →
  extraction.extract_text_from_pdf_with_ocr libs file_content lang = inr [].
Proof.
  intros Hdirect Hocr Hconvert Himage Hfail.
  unfold extraction.extract_text_from_pdf_with_ocr.
  rewrite Hdirect, Hocr, Hconvert, Himage.
  apply direct_extraction_text in Hdirect as [_ ->]; [|done].
  destruct (convert file_content) as [e|images]; [done|].
  by destruct Hfail as [e ->].
Qed.

(** X22: a file whose type is not one of the four supported ones is
    answered with 400 by the upload view, and nothing is passed to the
    store, whatever the libraries and the services do. *)
Theorem upload_post_unsupported `{unicode_db} {embedding : Type} libs fuel
    now embed store (add : add_call embedding → exn + unit) file :
  lower (extraction.suffix (file_name file))
    ∉ [lit ".pdf"; lit ".docx"; lit ".xlsx"; lit ".txt"] →
  upload_post fuel
    (Services now (extraction.extract_text_from_file lower libs) embed store add)
    file
  = Some (HTTP_400_BAD_REQUEST, []).
Proof.
  rewrite !not_elem_of_cons. intros (Hpdf & Hdocx & Hxlsx & Htxt & _).
  unfold upload_post, extraction.extract_text_from_file. simpl.
  rewrite !decide_False by done. done.
Qed.

End ExtractionProperties.

Lemma extract_text_from_file_error_witness :
  extraction.docx example_libraries = None.
Proof.
  destruct (extract_text_from_file_error ascii_lower example_libraries
              (UploadedFile (lit "Report.DOCX") [1; 2; 3]%N)
              (default []
                 (extraction.extract_text_from_file ascii_lower
                    example_libraries
                    (UploadedFile (lit "Report.DOCX") [1; 2; 3]%N)).2))
    as [[Hext _]|[[_ Hdocx]|[[Hext _]|Hext]]].
  - vm_compute. reflexivity.
  - vm_compute in Hext. discriminate Hext.
  - exact Hdocx.
  - vm_compute in Hext. discriminate Hext.
  - exfalso. apply Hext. vm_compute.
    apply list_elem_of_further, list_elem_of_here.
Defined.

Lemma extract_pdf_ocr_failure_witness :
  extraction.extract_text_from_pdf_with_ocr example_libraries [1; 2; 3]%N
    (lit "por")
  = inr [].
Proof.
  apply (extract_pdf_ocr_failure example_libraries [1; 2; 3]%N (lit "por")
           (λ _ _, inl ()) (λ _, inr [()]) []);
    try reflexivity.
  simpl. exists (). reflexivity.
Defined.

Lemma upload_post_unsupported_witness :
  @upload_post unit ascii_only 0
    (Services 0
       (extraction.extract_text_from_file ascii_lower example_libraries)
       (λ _ _, inr []) (inr ()) (λ _, inr ()))
    (UploadedFile (lit "setup.exe") [1; 2; 3]%N)
  = Some (HTTP_400_BAD_REQUEST, []).
Proof.
  apply (@upload_post_unsupported unit unit ascii_lower ascii_only unit
           example_libraries 0 0 (λ _ _, inr []) (inr ()) (λ _, inr ())
           (UploadedFile (lit "setup.exe") [1; 2; 3]%N)).
  eapply bool_decide_unpack. vm_compute. exact I.
Defined.

(** ** Properties of [RagQueryView.post] *)

Section QueryProperties.

Context {embedding gemini_response : Type}.

Implicit Types (svc : query_view.services embedding gemini_response).

Lemma query_handler_not_ok e b :
  query_view.handler e ≠ (query_view.HTTP_200_OK, b).
Proof. by destruct e. Qed.

Lemma query_handler_not_gemini e st :
  query_view.handler e ≠ (st, query_view.GeminiError).
Proof. by destruct e. Qed.

(** X23: a 200 answer of the query view carries the validated data made
    of the question, the documents retrieved for the embedding of the
    question (the first list of the store's answer, none when the store
    gives no ["documents"]), the text the model gave for the prompt built
    from these documents and the question, and the name of the model. *)
Theorem query_post_ok svc user_query top_k b :
  query_view.post svc user_query top_k = (query_view.HTTP_200_OK, b) →
  ∃ query_embedding retrieved_documents response answer data,
    b = query_view.Answer data ∧
    query_view.embed_query svc user_query = inr query_embedding ∧
    (query_view.collection_query svc query_embedding top_k = inr None ∧
       retrieved_documents = [] ∨
     ∃ others,
       query_view.collection_query svc query_embedding top_k
       = inr (Some (retrieved_documents :: others))) ∧
    query_view.generate_content svc
      (query_view.prompt retrieved_documents user_query) = inr response ∧
    query_view.response_text svc response = inr answer ∧
    query_view.validate svc
      (query_view.ResponseData user_query retrieved_documents answer
         (query_view.model_name svc)) = inr data.
Proof.
  unfold query_view.post.
  destruct (query_view.chroma_client svc) as [e|_];
    [by intros ?%query_handler_not_ok|].
  destruct (query_view.get_collection svc) as [e|_]; [done|].
  destruct (query_view.embed_query svc user_query) as [e|emb] eqn:Hemb;
    [by intros ?%query_handler_not_ok|].
  destruct (query_view.collection_query svc emb top_k)
    as [e|[[|docs others]|]] eqn:Hquery;
    [by intros ?%query_handler_not_ok|by intros ?%query_handler_not_ok|..];
    (destruct (query_view.gemini_model svc) as [e|_];
     [by intros ?%query_handler_not_ok|]);
    (destruct (query_view.generate_content svc _) as [e|response] eqn:Hgen;
     [by intros ?%query_handler_not_ok|]);
    (destruct (query_view.response_text svc response) as [e|answer] eqn:Htext;
     [done|]);
    (destruct (query_view.validate svc _) as [e|data] eqn:Hvalid;
     [by intros ?%query_handler_not_ok|]);
    intros [= <-].
  - exists emb, docs, response, answer, data. split_and!; eauto.
  - exists emb, [], response, answer, data. split_and!; eauto.
Qed.

(** X24: the error body written for the generative model is only sent when
    the model answered and reading the text of its answer raised. When the
    call of the model itself raises, the body is the one for unexpected
    errors, with status 500, whatever was raised. *)
Theorem query_post_generation_failure svc user_query top_k :
  (∀ st, query_view.post svc user_query top_k = (st, query_view.GeminiError) →
     st = query_view.HTTP_500_INTERNAL_SERVER_ERROR ∧
     ∃ retrieved_documents response e,
       query_view.generate_content svc
         (query_view.prompt retrieved_documents user_query) = inr response ∧
       query_view.response_text svc response = inl e) ∧
  (∀ query_embedding retrieved_documents others e,
     query_view.chroma_client svc = inr () →
     query_view.get_collection svc = inr () →
     query_view.embed_query svc user_query = inr query_embedding →
     query_view.collection_query svc query_embedding top_k
     = inr (Some (retrieved_documents :: others)) →
     query_view.gemini_model svc = inr () →
     query_view.generate_content svc
       (query_view.prompt retrieved_documents user_query) = inl e →
     query_view.post svc user_query top_k
     = (query_view.HTTP_500_INTERNAL_SERVER_ERROR,
        query_view.UnexpectedError)).
Proof.
  split.
  - intros st. unfold query_view.post.
    destruct (query_view.chroma_client svc) as [e|_];
      [by intros ?%query_handler_not_gemini|].
    destruct (query_view.get_collection svc) as [e|_]; [done|].
    destruct (query_view.embed_query svc user_query) as [e|emb];
      [by intros ?%query_handler_not_gemini|].
    destruct (query_view.collection_query svc emb top_k)
      as [e|[[|docs others]|]];
      [by intros ?%query_handler_not_gemini
      |by intros ?%query_handler_not_gemini|..];
      (destruct (query_view.gemini_model svc) as [e|_];
       [by intros ?%query_handler_not_gemini|]);
      (destruct (query_view.generate_content svc _) as [e|response] eqn:Hgen;
       [by intros ?%query_handler_not_gemini|]);
      (destruct (query_view.response_text svc response) as [e|answer] eqn:Htext;
       [|by destruct (query_view.validate svc _) as [e|data];
          [intros ?%query_handler_not_gemini|]]);
      intros [= <-]; (split; [done|]); eauto.
  - intros emb docs others e Hclient Hcoll Hemb Hquery Hmodel Hgen.
    unfold query_view.post.
    by rewrite Hclient, Hcoll, Hemb, Hquery, Hmodel, Hgen.
Qed.

End QueryProperties.

Lemma query_post_ok_witness :
  ∃ data,
    query_view.post
      (query_view.Services (inr ()) (inr ()) (λ _, inr ())
         (λ _ _, inr None) (inr ()) (λ _, inr ())
         (λ _, inr (lit "I do not know.")) (λ data, inr data) (lit "gemini"))
      (lit "Why?") 3
    = (query_view.HTTP_200_OK, query_view.Answer data).
Proof.
  destruct (@query_post_ok unit unit
              (query_view.Services (inr ()) (inr ()) (λ _, inr ())
                 (λ _ _, inr None) (inr ()) (λ _, inr ())
                 (λ _, inr (lit "I do not know.")) (λ data, inr data)
                 (lit "gemini"))
              (lit "Why?") 3
              (query_view.Answer
                 (query_view.ResponseData (lit "Why?") []
                    (lit "I do not know.") (lit "gemini"))) eq_refl)
    as (emb & docs & response & answer & data & Hb & _).
  exists data. by rewrite <- Hb.
Defined.

Lemma query_post_generation_failure_witness :
  query_view.post example_query_services (lit "What is the capital?") 3
  = (query_view.HTTP_500_INTERNAL_SERVER_ERROR, query_view.UnexpectedError).
Proof.
  eapply (proj2 (@query_post_generation_failure unit unit
                   example_query_services (lit "What is the capital?") 3));
    reflexivity.
Defined.
